(** * Version resolution and listing engine of the S3 gateway layer

    A shallow embedding of [api/layer/versioning.go] (kept in one file with
    [tree_service.go]) and [api/layer/object.go], followed by the properties
    of version resolution, header merging and paginated listing. *)

From Stdlib Require Import String Ascii ZArith NArith List Lia Bool.
From stdpp Require Import base list sorting gmap strings.

Local Open Scope string_scope.
Local Open Scope Z_scope.
Local Open Scope list_scope.

(** ** Go strings: byte-wise lexicographic order, split and join *)

Module GoString.

(** Go's [s < t], [s <= t], [s > t], [s >= t] on strings. *)
Definition lt (s t : string) : bool := String.ltb s t.
Definition le (s t : string) : bool := String.leb s t.
Definition gt (s t : string) : bool := String.ltb t s.
Definition ge (s t : string) : bool := String.leb t s.

(** [strings.Split(s, ",")]: always at least one field. *)
Fixpoint split_comma (s : string) : list string :=
  match s with
  | EmptyString => [EmptyString]
  | String c r =>
      if Ascii.eqb c ","%char then EmptyString :: split_comma r
      else match split_comma r with
           | h :: t => String c h :: t
           | [] => [String c EmptyString]
           end
  end.

(** [strings.Join(l, ",")]. *)
Definition join_comma (l : list string) : string := String.concat "," l.

(** [strings.Contains(s, sub)]. *)
Fixpoint contains_sub (sub s : string) : bool :=
  String.prefix sub s ||
  match s with
  | EmptyString => false
  | String _ r => contains_sub sub r
  end.

End GoString.

(** ** Data model *)

(** Modelled from the spec: [data.ObjectInfo], whose declaration is outside
    the files embedded here ("LogicalObjectVersion": version identifier, bucket,
    key name, size, creation epoch, attribute map, directory flag).  [ID]
    holds the printed object id, so [ID.String()] is the field itself. *)
Record ObjectInfo := mkObjectInfo {
  ID : string;
  Bucket : string;
  Name : string;
  IsDir : bool;
  Size : Z;
  CreationEpoch : N;
  Headers : gmap string string
}.

(** [oi.Version()]: the printed id of the physical object. *)
Definition Version (oi : ObjectInfo) : string := ID oi.

(** Reading a Go [map[string]string]: a missing key reads as [""]. *)
Definition hdr (h : gmap string string) (k : string) : string :=
  default EmptyString (h !! k).

Definition unversionedObjectVersionID := "null".
Definition objectSystemAttributeName := "S3-System-name".
Definition attrVersionsIgnore := "S3-Versions-ignore".
Definition attrSettingsVersioningEnabled := "S3-Settings-Versioning-enabled".
Definition versionsDelAttr := "S3-Versions-del".
Definition versionsAddAttr := "S3-Versions-add".
Definition versionsDeleteMarkAttr := "S3-Versions-delete-mark".
Definition delMarkFullObject := "*".

(** Modelled from the spec: the constant [versionsUnversionedAttr] is used
    by [updateCRDT2PSetHeaders] but declared outside the files embedded
    here; it
    names the "unversioned" flag header. *)
Definition versionsUnversionedAttr := "S3-Versions-unversioned".

Record objectVersions := mkObjectVersions {
  name : string;
  objects : list ObjectInfo;
  addList : list string;
  delList : list string;
  isSorted : bool
}.

(** ** [sort.Slice]

    The standard library promises a permutation of the slice in which no
    element is [less] than an earlier one; it is not stable, so the order
    of elements that compare equal is left open.  The development is
    parametric in any function with these two properties. *)
Class SliceSorter := {
  sort_slice : forall {A : Type}, (A -> A -> bool) -> list A -> list A;
  sort_slice_perm : forall (A : Type) (lt : A -> A -> bool) (l : list A),
    sort_slice lt l ≡ₚ l;
  sort_slice_sorted : forall (A : Type) (lt : A -> A -> bool) (l : list A),
    (forall x y, lt x y = true -> lt y x = false) ->
    (forall x y z, lt y x = false -> lt z y = false -> lt z x = false) ->
    StronglySorted (fun a b => lt b a = false) (sort_slice lt l)
}.

(** One such function: merge sort on the relation "not greater". *)
Definition merge_sort_by {A : Type} (lt : A -> A -> bool) (l : list A) : list A :=
  @merge_sort A (fun a b => lt b a = false)
    (fun a b => decide_rel (=) (lt b a) false) l.

(** ** versioning.go *)

Definition newObjectVersions (nm : string) : objectVersions :=
  mkObjectVersions nm [] [] [] false.

Fixpoint contains (list : list string) (elem : string) : bool :=
  match list with
  | [] => false
  | item :: rest => if String.eqb elem item then true else contains rest elem
  end.

Definition splitVersions (header : string) : list string :=
  if (String.length header =? 0)%nat then [] else GoString.split_comma header.

(** The loop [for _, x := range xs { if !contains(acc, x) { acc = append(acc, x) } }]. *)
Definition appendMissing (acc xs : list string) : list string :=
  fold_left (fun acc x => if contains acc x then acc else acc ++ [x]) xs acc.

Definition addVersOf (oi : ObjectInfo) : list string :=
  splitVersions (hdr (Headers oi) versionsAddAttr) ++ [Version oi].

Definition delVersOf (oi : ObjectInfo) : list string :=
  splitVersions (hdr (Headers oi) versionsDelAttr).

Definition appendVersion (v : objectVersions) (oi : ObjectInfo) : objectVersions :=
  let addVers := addVersOf oi in
  let delVers := delVersOf oi in
  {| name := name v;
     objects := objects v ++ [oi];
     addList := appendMissing (addList v) addVers;
     delList := appendMissing (delList v) delVers;
     isSorted := false |}.

Definition less (ov1 ov2 : ObjectInfo) : bool :=
  if N.eqb (CreationEpoch ov1) (CreationEpoch ov2)
  then GoString.lt (Version ov1) (Version ov2)
  else N.ltb (CreationEpoch ov1) (CreationEpoch ov2).

(** Modelled from the spec: [getExistedVersions] is called by [getLast],
    [getFiltered] and [checkVersionsExist] but defined outside the files
    embedded here; "existing = union(all add-lists seen) - union(all del-lists
    seen)", over the two lists the version set has accumulated. *)
Definition getExistedVersions (v : objectVersions) : list string :=
  List.filter (fun add => negb (contains (delList v) add)) (addList v).

Definition delMarkOf (oi : ObjectInfo) : string :=
  hdr (Headers oi) versionsDeleteMarkAttr.

Section Versioning.
Context `{SliceSorter}.

(** [v.sort()] reorders [v.objects] in place; the updated receiver is the
    result. *)
Definition sort (v : objectVersions) : objectVersions :=
  if isSorted v then v
  else {| name := name v;
          objects := sort_slice less (objects v);
          addList := addList v;
          delList := delList v;
          isSorted := true |}.

(** Body of the loop of [getLast], from index [len-1] down to [0]: the
    argument is the slice read backwards. *)
Fixpoint getLastLoop (existedVersions : list string)
    (backwards : list ObjectInfo) : option ObjectInfo :=
  match backwards with
  | [] => None
  | oi :: rest =>
      if contains existedVersions (Version oi) then
        let delMarkHeader := delMarkOf oi in
        if String.eqb delMarkHeader "" then Some oi
        else if String.eqb delMarkHeader delMarkFullObject then None
        else getLastLoop existedVersions rest
      else getLastLoop existedVersions rest
  end.

(** [getLast] returns the resolved version ([None] for Go's [nil]) and the
    receiver as the call leaves it. *)
Definition getLast (v : objectVersions) : option ObjectInfo * objectVersions :=
  if (length (objects v) =? 0)%nat then (None, v)
  else
    let v := sort v in
    let existedVersions := getExistedVersions v in
    (getLastLoop existedVersions (reverse (objects v)), v).

Definition getFiltered (v : objectVersions) : list ObjectInfo * objectVersions :=
  if (length (objects v) =? 0)%nat then ([], v)
  else
    let v := sort v in
    let existedVersions := getExistedVersions v in
    (List.filter
       (fun version =>
          let delMark := delMarkOf version in
          contains existedVersions (Version version)
          && (String.eqb delMark delMarkFullObject || String.eqb delMark ""))
       (objects v),
     v).

End Versioning.

Definition getAddHeader (v : objectVersions) : string :=
  GoString.join_comma (addList v).

Definition getDelHeader (v : objectVersions) : string :=
  GoString.join_comma (delList v).

(** ** object.go: write-time header merge *)

(** Modelled from the spec: [isEmpty], [isAddListEmpty] and [unversioned]
    are methods of [objectVersions] that [updateCRDT2PSetHeaders] calls but
    the files embedded here do not define: "non-empty prior version set", the
    accumulated add-list, and "every prior version marked unversioned". *)
Definition isEmpty (v : objectVersions) : bool := (length (objects v) =? 0)%nat.

Definition isAddListEmpty (v : objectVersions) : bool :=
  (length (addList v) =? 0)%nat.

Definition unversioned (v : objectVersions) : list ObjectInfo :=
  List.filter
    (fun oi => String.eqb (hdr (Headers oi) versionsUnversionedAttr) "true")
    (objects v).

(** The loop over [versions.unversioned()]: the comma-joined ids and the
    ids to delete, in the order met. *)
Definition additionalDelLoop (unv : list ObjectInfo) : string * list string :=
  snd (fold_left
         (fun '(i, (additionalDel, idsToDeleteArr)) del =>
            let additionalDel :=
              if (i =? 0)%nat then additionalDel
              else (additionalDel ++ ",")%string in
            (S i, ((additionalDel ++ Version del)%string,
                   idsToDeleteArr ++ [ID del])))
         unv (0%nat, (EmptyString, []))).

(** The header map is updated in place; the function returns the map as the
    call leaves it together with [idsToDeleteArr]. *)
Definition updateCRDT2PSetHeaders (header : gmap string string)
    (versions : objectVersions) (versioningEnabled : bool)
    : gmap string string * list string :=
  let header :=
    if negb versioningEnabled
    then <[versionsUnversionedAttr := "true"]> header else header in
  if isEmpty versions then (header, [])
  else
    let header :=
      if negb (isAddListEmpty versions)
      then <[versionsAddAttr := getAddHeader versions]> header else header in
    if versioningEnabled then
      let versionsDeletedStr := getDelHeader versions in
      let delAttr := hdr header versionsDelAttr in
      let header :=
        if negb (String.length delAttr =? 0)%nat then
          if negb (String.length versionsDeletedStr =? 0)%nat
          then <[versionsDelAttr := (versionsDeletedStr ++ "," ++ delAttr)%string]> header
          else <[versionsDelAttr := delAttr]> header
        else if negb (String.length versionsDeletedStr =? 0)%nat
          then <[versionsDelAttr := versionsDeletedStr]> header
          else header in
      (header, [])
    else
      let versionsDeletedStr := getDelHeader versions in
      let '(additionalDel, idsToDeleteArr) :=
        additionalDelLoop (unversioned versions) in
      let versionsDeletedStr :=
        if negb (String.length additionalDel =? 0)%nat then
          ((if negb (String.length versionsDeletedStr =? 0)%nat
            then versionsDeletedStr ++ "," else versionsDeletedStr)
           ++ additionalDel)%string
        else versionsDeletedStr in
      let header :=
        if negb (String.length versionsDeletedStr =? 0)%nat
        then <[versionsDelAttr := versionsDeletedStr]> header else header in
      (header, idsToDeleteArr).

(** ** object.go: helpers of the listings *)

Definition isSystem (obj : ObjectInfo) : bool :=
  (0 <? String.length (hdr (Headers obj) objectSystemAttributeName))%nat
  || (0 <? String.length (hdr (Headers obj) attrVersionsIgnore))%nat.

Definition IsSystemHeader (key : string) : bool := String.prefix "S3-" key.

(** [for i := range objects { if objects[i].Name > startAfter { return objects[i:] } }]. *)
Fixpoint firstAfterName (startAfter : string) (objects : list ObjectInfo)
    : list ObjectInfo :=
  match objects with
  | [] => []
  | oi :: rest =>
      if GoString.gt (Name oi) startAfter then oi :: rest
      else firstAfterName startAfter rest
  end.

Definition trimAfterObjectName (startAfter : string) (objects : list ObjectInfo)
    : list ObjectInfo :=
  match last objects with
  | Some lastObj =>
      if GoString.le (Name lastObj) startAfter then []
      else firstAfterName startAfter objects
  | None => firstAfterName startAfter objects
  end.

(** [for i, obj := range objects { if obj.ID.String() == id { return objects[i+1:] } }]. *)
Fixpoint afterID (id : string) (objects : list ObjectInfo) : list ObjectInfo :=
  match objects with
  | [] => []
  | obj :: rest => if String.eqb (ID obj) id then rest else afterID id rest
  end.

Definition trimAfterObjectID (id : string) (objects : list ObjectInfo)
    : list ObjectInfo :=
  match last objects with
  | Some lastObj =>
      if String.eqb (ID lastObj) id then [] else afterID id objects
  | None => afterID id objects
  end.

Definition triageObjects (allObjects : list ObjectInfo)
    : list string * list ObjectInfo :=
  fold_left
    (fun '(prefixes, objects) ov =>
       if IsDir ov then (prefixes ++ [Name ov], objects)
       else (prefixes, objects ++ [ov]))
    allObjects ([], []).

(** ** The layer: errors, panics, collaborators and mutable state *)

Inductive error :=
  | ErrAccessDenied
  | ErrBackend (msg : string).

(** What a Go call produces: a value, a returned [error], or a run-time
    panic (index or slice bound out of range, [make] with a negative
    capacity). *)
Inductive result (A : Type) :=
  | Ok (a : A)
  | Err (e : error)
  | Panic.
Arguments Ok {A} a.
Arguments Err {A} e.
Arguments Panic {A}.

Definition result_bind {A B : Type} (r : result A) (k : A -> result B) : result B :=
  match r with
  | Ok a => k a
  | Err e => Err e
  | Panic => Panic
  end.

(** [s[i]] with Go's bounds check. *)
Definition index {A : Type} (s : list A) (i : Z) : result A :=
  if (i <? 0) || (Z.of_nat (length s) <=? i) then Panic
  else match s !! Z.to_nat i with
       | Some x => Ok x
       | None => Panic
       end.

(** [s[:k]] for [k] up to the length (the code never reslices beyond it). *)
Definition slice_to {A : Type} (s : list A) (k : Z) : result (list A) :=
  if (k <? 0) || (Z.of_nat (length s) <? k) then Panic
  else Ok (take (Z.to_nat k) s).

(** [make([]T, 0, c)]. *)
Definition make_cap (c : Z) : result unit :=
  if c <? 0 then Panic else Ok tt.

(** Modelled from the spec: the backend's header of a physical object
    ([object.Object]) and [data.BucketInfo]; only what the embedded code
    reads. *)
Record ObjectMeta := mkObjectMeta {
  metaID : string;
  metaCreationEpoch : N;
  metaAttributes : gmap string string
}.

Record BucketInfo := mkBucketInfo {
  bktName : string;
  CID : string
}.

Inductive searchFilter :=
  | FilterRoot
  | FilterStringEqual (attr val : string)
  | FilterCommonPrefix (attr val : string).

Definition AttributeFileName := "FileName".

(** The collaborators behind [n *layer] whose code is outside the files
    embedded here: the bucket lookup, the backend pool, the conversion of a header
    to an [ObjectInfo] (with prefix and delimiter collapsing) and the cache
    key of version listings. *)
Record layer := mkLayer {
  bucketInfoOf : string -> result BucketInfo;
  poolSearchObject : string -> list searchFilter -> error + list string;
  poolGetObjectHeader : string -> string -> error + ObjectMeta;
  objectInfoFromMeta : BucketInfo -> ObjectMeta -> string -> string -> option ObjectInfo;
  createKey : string -> string -> string -> string -> result string
}.

Inductive call :=
  | CallGetBucketInfo (bucket : string)
  | CallSearchObject (cid : string) (filters : list searchFilter)
  | CallGetObjectHeader (cid oid : string).

(** The caches the layer owns, and the calls issued so far.  [n.listsCache]
    holds id lists in object.go and object lists in [ListObjectVersions];
    the store keeps one map for each use. *)
Record store := mkStore {
  objCache : gmap (string * string) ObjectMeta;
  listsCache : gmap (string * string) (list string);
  versionsListsCache : gmap string (list ObjectInfo);
  calls : list call
}.

Definition M (A : Type) : Type := store -> result A * store.

Definition ret {A : Type} (a : A) : M A := fun st => (Ok a, st).

Definition bind {A B : Type} (m : M A) (k : A -> M B) : M B :=
  fun st =>
    match m st with
    | (Ok a, st') => k a st'
    | (Err e, st') => (Err e, st')
    | (Panic, st') => (Panic, st')
    end.

Definition lift {A : Type} (r : result A) : M A := fun st => (r, st).

Definition record (c : call) : M unit :=
  fun st => (Ok tt, mkStore (objCache st) (listsCache st) (versionsListsCache st)
                            (calls st ++ [c])).

Notation "'let*' x ':=' m 'in' k" := (bind m (fun x => k))
  (at level 10, x name, m at level 100, k at level 200).

Definition transformNeofsError (e : error) : error :=
  match e with
  | ErrBackend msg =>
      if GoString.contains_sub "access to operation" msg
         && GoString.contains_sub "is denied by" msg
      then ErrAccessDenied else e
  | _ => e
  end.

Definition GetBucketInfo (n : layer) (bucket : string) : M BucketInfo :=
  let* _ := record (CallGetBucketInfo bucket) in
  lift (bucketInfoOf n bucket).

Record findParams := mkFindParams {
  filters : list (string * string);
  cid : string;
  prefix : string
}.

Definition objectSearch (n : layer) (p : findParams) : M (list string) :=
  let opts := [FilterRoot] in
  let opts :=
    fold_left (fun opts '(attr, val) => opts ++ [FilterStringEqual attr val])
              (filters p) opts in
  let opts :=
    if negb (String.eqb (prefix p) "")
    then opts ++ [FilterCommonPrefix AttributeFileName (prefix p)] else opts in
  let* _ := record (CallSearchObject (cid p) opts) in
  match poolSearchObject n (cid p) opts with
  | inr ids => ret ids
  | inl err => lift (Err (transformNeofsError err))
  end.

Definition objectHead (n : layer) (cid oid : string) : M ObjectMeta :=
  let* _ := record (CallGetObjectHeader cid oid) in
  match poolGetObjectHeader n cid oid with
  | inr obj => ret obj
  | inl err => lift (Err (transformNeofsError err))
  end.

Definition objCachePut (cid oid : string) (meta : ObjectMeta) : M unit :=
  fun st => (Ok tt, mkStore (<[(cid, oid) := meta]> (objCache st)) (listsCache st)
                            (versionsListsCache st) (calls st)).

(** A failed head is logged and reported as [nil]. *)
Definition objectFromObjectsCacheOrNeoFS (n : layer) (cid oid : string)
    : M (option ObjectMeta) :=
  fun st =>
    match objCache st !! (cid, oid) with
    | Some meta => (Ok (Some meta), st)
    | None =>
        match objectHead n cid oid st with
        | (Ok meta, st') =>
            (let* _ := objCachePut cid oid meta in ret (Some meta)) st'
        | (Err _, st') => (Ok None, st')
        | (Panic, st') => (Panic, st')
        end
    end.

(** ** object.go: discovery of the version sets under a prefix *)

Definition listsCacheGet (key : string * string) : M (option (list string)) :=
  fun st => (Ok (listsCache st !! key), st).

Definition listsCachePut (key : string * string) (ids : list string) : M unit :=
  fun st => (Ok tt, mkStore (objCache st) (<[key := ids]> (listsCache st))
                            (versionsListsCache st) (calls st)).

(** One round of the loop of [getAllObjectsVersions] over the ids. *)
Definition foldObjectID (n : layer) (bkt : BucketInfo) (prefix delimiter : string)
    (versions : gmap string objectVersions) (id : string)
    : M (gmap string objectVersions) :=
  let* obj := objectFromObjectsCacheOrNeoFS n (CID bkt) id in
  match obj with
  | None => ret versions
  | Some obj =>
      match objectInfoFromMeta n bkt obj prefix delimiter with
      | None => ret versions
      | Some oi =>
          if isSystem oi then ret versions
          else
            let objVersions :=
              match versions !! Name oi with
              | Some objVersions => objVersions
              | None => newObjectVersions (Name oi)
              end in
            ret (<[Name oi := appendVersion objVersions oi]> versions)
      end
  end.

Fixpoint foldObjectIDs (n : layer) (bkt : BucketInfo) (prefix delimiter : string)
    (ids : list string) (versions : gmap string objectVersions)
    : M (gmap string objectVersions) :=
  match ids with
  | [] => ret versions
  | id :: rest =>
      let* versions := foldObjectID n bkt prefix delimiter versions id in
      foldObjectIDs n bkt prefix delimiter rest versions
  end.

Definition getAllObjectsVersions (n : layer) (bkt : BucketInfo)
    (prefix delimiter : string) : M (gmap string objectVersions) :=
  let cacheKey := (CID bkt, prefix) in
  let* cached := listsCacheGet cacheKey in
  let* ids :=
    match cached with
    | Some ids => ret ids
    | None =>
        let* ids := objectSearch n (mkFindParams [] (CID bkt) prefix) in
        let* _ := listsCachePut cacheKey ids in
        ret ids
    end in
  foldObjectIDs n bkt prefix delimiter ids ∅.

(** ** object.go: flat listings *)

Module ListObjectsParamsCommon.
Record t := mk {
  Bucket : string;
  Delimiter : string;
  Encode : string;
  MaxKeys : Z;
  Prefix : string
}.
End ListObjectsParamsCommon.

Module ListObjectsParamsV1.
Record t := mk {
  Common : ListObjectsParamsCommon.t;
  Marker : string
}.
End ListObjectsParamsV1.

Module ListObjectsParamsV2.
Record t := mk {
  Common : ListObjectsParamsCommon.t;
  ContinuationToken : string;
  StartAfter : string;
  FetchOwner : bool
}.
End ListObjectsParamsV2.

(** Modelled from the spec: the result types of the listings are declared
    outside the files embedded here; the fields are those the code assigns. *)
Module ListObjectsInfoV1.
Record t := mk {
  Prefixes : list string;
  Objects : list ObjectInfo;
  IsTruncated : bool;
  NextMarker : string
}.
Definition zero : t := mk [] [] false EmptyString.
End ListObjectsInfoV1.

Module ListObjectsInfoV2.
Record t := mk {
  Prefixes : list string;
  Objects : list ObjectInfo;
  IsTruncated : bool;
  NextContinuationToken : string
}.
Definition zero : t := mk [] [] false EmptyString.
End ListObjectsInfoV2.

Section FlatListing.
Context `{SliceSorter}.

(** The map is ranged over in an order Go leaves open; the entries are
    sorted by name right after. *)
Definition listSortedObjects (n : layer) (bkt : BucketInfo)
    (prefix delimiter : string) : M (list ObjectInfo) :=
  let* versions := getAllObjectsVersions n bkt prefix delimiter in
  let objects :=
    omap (fun '(_, v) => fst (getLast v)) (map_to_list versions) in
  ret (sort_slice (fun a b => GoString.lt (Name a) (Name b)) objects).

Definition listAllObjects (n : layer) (p : ListObjectsParamsCommon.t)
    : M (list ObjectInfo) :=
  let* bkt := GetBucketInfo n (ListObjectsParamsCommon.Bucket p) in
  listSortedObjects n bkt (ListObjectsParamsCommon.Prefix p)
                    (ListObjectsParamsCommon.Delimiter p).

(** Cursor application of [ListObjectsV1]. *)
Definition cursorV1 (p : ListObjectsParamsV1.t) (allObjects : list ObjectInfo)
    : list ObjectInfo :=
  if negb (String.eqb (ListObjectsParamsV1.Marker p) "")
  then trimAfterObjectName (ListObjectsParamsV1.Marker p) allObjects
  else allObjects.

(** Cursor application of [ListObjectsV2]: the continuation token, then
    start-after. *)
Definition cursorV2 (p : ListObjectsParamsV2.t) (allObjects : list ObjectInfo)
    : list ObjectInfo :=
  let allObjects :=
    if negb (String.eqb (ListObjectsParamsV2.ContinuationToken p) "")
    then trimAfterObjectID (ListObjectsParamsV2.ContinuationToken p) allObjects
    else allObjects in
  if negb (String.eqb (ListObjectsParamsV2.StartAfter p) "")
  then trimAfterObjectName (ListObjectsParamsV2.StartAfter p) allObjects
  else allObjects.

(** The truncation step the two flat listings share: the flag, the next
    cursor read off the last element kept ([cursorOf] is the name for V1
    and the id for V2), and the page. *)
Definition truncateFlat (cursorOf : ObjectInfo -> string) (maxKeys : Z)
    (allObjects : list ObjectInfo) : result (bool * string * list ObjectInfo) :=
  if Z.of_nat (length allObjects) >? maxKeys then
    result_bind (slice_to allObjects maxKeys) (fun allObjects =>
    result_bind (index allObjects (Z.of_nat (length allObjects) - 1)) (fun lastObj =>
    Ok (true, cursorOf lastObj, allObjects)))
  else Ok (false, EmptyString, allObjects).

(** [ListObjectsV1] from the marker on: trim, truncate, triage. *)
Definition pageV1 (p : ListObjectsParamsV1.t) (allObjects : list ObjectInfo)
    : result ListObjectsInfoV1.t :=
  let MaxKeys := ListObjectsParamsCommon.MaxKeys (ListObjectsParamsV1.Common p) in
  let allObjects := cursorV1 p allObjects in
  result_bind (truncateFlat Name MaxKeys allObjects)
    (fun '(isTruncated, nextMarker, allObjects) =>
       let '(prefixes, objects) := triageObjects allObjects in
       Ok (ListObjectsInfoV1.mk prefixes objects isTruncated nextMarker)).

Definition ListObjectsV1 (n : layer) (p : ListObjectsParamsV1.t)
    : M ListObjectsInfoV1.t :=
  if ListObjectsParamsCommon.MaxKeys (ListObjectsParamsV1.Common p) =? 0
  then ret ListObjectsInfoV1.zero
  else
    let* allObjects := listAllObjects n (ListObjectsParamsV1.Common p) in
    if (length allObjects =? 0)%nat then ret ListObjectsInfoV1.zero
    else lift (pageV1 p allObjects).

(** [ListObjectsV2] from the continuation token on. *)
Definition pageV2 (p : ListObjectsParamsV2.t) (allObjects : list ObjectInfo)
    : result ListObjectsInfoV2.t :=
  let MaxKeys := ListObjectsParamsCommon.MaxKeys (ListObjectsParamsV2.Common p) in
  let allObjects := cursorV2 p allObjects in
  result_bind (truncateFlat ID MaxKeys allObjects)
    (fun '(isTruncated, nextToken, allObjects) =>
       let '(prefixes, objects) := triageObjects allObjects in
       Ok (ListObjectsInfoV2.mk prefixes objects isTruncated nextToken)).

Definition ListObjectsV2 (n : layer) (p : ListObjectsParamsV2.t)
    : M ListObjectsInfoV2.t :=
  if ListObjectsParamsCommon.MaxKeys (ListObjectsParamsV2.Common p) =? 0
  then ret ListObjectsInfoV2.zero
  else
    let* allObjects := listAllObjects n (ListObjectsParamsV2.Common p) in
    if (length allObjects =? 0)%nat then ret ListObjectsInfoV2.zero
    else lift (pageV2 p allObjects).

End FlatListing.

(** ** versioning.go: version listing *)

Module ListObjectVersionsParams.
Record t := mk {
  Bucket : string;
  Delimiter : string;
  KeyMarker : string;
  MaxKeys : Z;
  Prefix : string;
  VersionIDMarker : string;
  Encode : string
}.
End ListObjectVersionsParams.

Record ObjectVersionInfo := mkObjectVersionInfo {
  Object : ObjectInfo;
  IsLatest : bool
}.

Module ListObjectVersionsInfo.
Record t := mk {
  CommonPrefixes : list string;
  IsTruncated : bool;
  KeyMarker : string;
  NextKeyMarker : string;
  NextVersionIDMarker : string;
  Version : list ObjectVersionInfo;
  DeleteMarker : list ObjectVersionInfo;
  VersionIDMarker : string
}.
End ListObjectVersionsInfo.

Definition listVersionsMethod := "listVersions".

(** The marker loop: the slice is cut to start at the first element that
    passes the test; when none does the loop ends and the slice is left as
    it was. *)
Fixpoint fromMarker (keyMarker versionIDMarker : string)
    (allObjects : list ObjectInfo) : option (list ObjectInfo) :=
  match allObjects with
  | [] => None
  | obj :: rest =>
      if GoString.ge (Name obj) keyMarker
         && GoString.ge (Version obj) versionIDMarker
      then Some (obj :: rest)
      else fromMarker keyMarker versionIDMarker rest
  end.

Definition applyMarkers (keyMarker versionIDMarker : string)
    (allObjects : list ObjectInfo) : list ObjectInfo :=
  match fromMarker keyMarker versionIDMarker allObjects with
  | Some trimmed => trimmed
  | None => allObjects
  end.

(** The truncation step: next markers, the page, and the markers of the
    last element shown. *)
Record truncation := mkTruncation {
  truncIsTruncated : bool;
  truncNextKeyMarker : string;
  truncNextVersionIDMarker : string;
  truncPage : list ObjectInfo;
  truncKeyMarker : string;
  truncVersionIDMarker : string
}.

Definition truncateVersions (maxKeys : Z) (allObjects : list ObjectInfo)
    : result truncation :=
  if Z.of_nat (length allObjects) >? maxKeys then
    result_bind (index allObjects maxKeys) (fun next =>
    result_bind (slice_to allObjects maxKeys) (fun page =>
    result_bind (index page (maxKeys - 1)) (fun lastObj =>
    Ok (mkTruncation true (Name next) (Version next) page
                     (Name lastObj) (Version lastObj)))))
  else Ok (mkTruncation false EmptyString EmptyString allObjects
                        EmptyString EmptyString).

(** The loop that wraps each object and flags the last one of each run of
    equal names: [i == len(allObjects)-1 || allObjects[i+1].Name != obj.Name]. *)
Fixpoint markLatest (allObjects : list ObjectInfo) : list ObjectVersionInfo :=
  match allObjects with
  | [] => []
  | obj :: rest =>
      mkObjectVersionInfo obj
        (match rest with
         | [] => true
         | next :: _ => negb (String.eqb (Name next) (Name obj))
         end)
      :: markLatest rest
  end.

Definition triageVersions (objVersions : list ObjectVersionInfo)
    : list ObjectVersionInfo * list ObjectVersionInfo :=
  if (length objVersions =? 0)%nat then ([], [])
  else
    fold_left
      (fun '(resVersion, resDelMarkVersions) version =>
         if String.eqb (hdr (Headers (Object version)) versionsDeleteMarkAttr)
                       delMarkFullObject
         then (resVersion, resDelMarkVersions ++ [version])
         else (resVersion ++ [version], resDelMarkVersions))
      objVersions ([], []).

(** [ListObjectVersions] from the marker loop on. *)
Definition pageVersions (p : ListObjectVersionsParams.t)
    (allObjects : list ObjectInfo) : result ListObjectVersionsInfo.t :=
  let allObjects :=
    applyMarkers (ListObjectVersionsParams.KeyMarker p)
                 (ListObjectVersionsParams.VersionIDMarker p) allObjects in
  let '(commonPrefixes, allObjects) := triageObjects allObjects in
  result_bind (truncateVersions (ListObjectVersionsParams.MaxKeys p) allObjects)
    (fun tr =>
       let objects := markLatest (truncPage tr) in
       let '(version, deleteMarker) := triageVersions objects in
       Ok (ListObjectVersionsInfo.mk commonPrefixes (truncIsTruncated tr)
             (truncKeyMarker tr) (truncNextKeyMarker tr)
             (truncNextVersionIDMarker tr) version deleteMarker
             (truncVersionIDMarker tr))).

Definition versionsListsCacheGet (key : string) : M (list ObjectInfo) :=
  fun st => (Ok (default [] (versionsListsCache st !! key)), st).

Definition versionsListsCachePut (key : string) (l : list ObjectInfo) : M unit :=
  fun st => (Ok tt, mkStore (objCache st) (listsCache st)
                            (<[key := l]> (versionsListsCache st)) (calls st)).

Section VersionListing.
Context `{SliceSorter}.

(** The universe of a version listing: every key's filtered history, the
    keys taken in sorted order. *)
Definition allVersionsSorted (versions : gmap string objectVersions)
    : list ObjectInfo :=
  let sortedNames := sort_slice GoString.lt (fst <$> map_to_list versions) in
  flat_map
    (fun name =>
       match versions !! name with
       | Some v => fst (getFiltered v)
       | None => []
       end)
    sortedNames.

(** [ListObjectVersions] up to the marker loop: the universe from the
    cache or from the backend.  A miss of the cache reads as the nil slice,
    and so does a cached empty list. *)
Definition loadAllVersions (n : layer) (p : ListObjectVersionsParams.t)
    : M (list ObjectInfo) :=
  let* bkt := GetBucketInfo n (ListObjectVersionsParams.Bucket p) in
  let* cacheKey :=
    lift (createKey n (CID bkt) listVersionsMethod
            (ListObjectVersionsParams.Prefix p)
            (ListObjectVersionsParams.Delimiter p)) in
  let* allObjects := versionsListsCacheGet cacheKey in
  match allObjects with
  | [] =>
      let* versions :=
        getAllObjectsVersions n bkt (ListObjectVersionsParams.Prefix p)
                              (ListObjectVersionsParams.Delimiter p) in
      let* _ := lift (make_cap (ListObjectVersionsParams.MaxKeys p)) in
      let allObjects := allVersionsSorted versions in
      let* _ := versionsListsCachePut cacheKey allObjects in
      ret allObjects
  | _ => ret allObjects
  end.

Definition ListObjectVersions (n : layer) (p : ListObjectVersionsParams.t)
    : M ListObjectVersionsInfo.t :=
  let* allObjects := loadAllVersions n p in
  lift (pageVersions p allObjects).

End VersionListing.

(** ** The claims as worded, for comparison with the code *)

(** Resolution as worded: the first version in the existing-set, scanning
    from the newest, is the answer unless it carries the full-object mark. *)
Definition getLast_as_worded (existedVersions : list string)
    (backwards : list ObjectInfo) : option ObjectInfo :=
  match List.find (fun oi => contains existedVersions (Version oi)) backwards with
  | Some oi =>
      if String.eqb (delMarkOf oi) delMarkFullObject then None else Some oi
  | None => None
  end.

(** Filtered history as worded: every version in the existing-set. *)
Definition getFiltered_as_worded (existedVersions : list string)
    (sorted : list ObjectInfo) : list ObjectInfo :=
  List.filter (fun oi => contains existedVersions (Version oi)) sorted.

(** Cursor application as worded for version listings: the elements whose
    (name, version id) pair is strictly after the marker pair. *)
Definition pair_after (keyMarker versionIDMarker : string) (oi : ObjectInfo) : bool :=
  GoString.gt (Name oi) keyMarker
  || (String.eqb (Name oi) keyMarker && GoString.gt (Version oi) versionIDMarker).

Definition applyMarkers_as_worded (keyMarker versionIDMarker : string)
    (allObjects : list ObjectInfo) : list ObjectInfo :=
  List.filter (pair_after keyMarker versionIDMarker) allObjects.

(** ** Version sets the program can build *)

Definition foldVersions (nm : string) (l : list ObjectInfo) : objectVersions :=
  fold_left appendVersion l (newObjectVersions nm).

(** The existing-set, the union of the add-lists and the union of the
    del-lists of a collection of physical versions, as finite sets. *)
Definition existingSet (v : objectVersions) : gset string :=
  list_to_set (getExistedVersions v).

Definition addUnion (l : list ObjectInfo) : gset string :=
  ⋃ ((fun oi => list_to_set (addVersOf oi)) <$> l).

Definition delUnion (l : list ObjectInfo) : gset string :=
  ⋃ ((fun oi => list_to_set (delVersOf oi)) <$> l).

(** Version ids identify physical versions (the backend assigns them
    uniquely): two entries with one id are one and the same object. *)
Definition unique_ids (l : list ObjectInfo) : Prop :=
  forall a b, In a l -> In b l -> Version a = Version b -> a = b.

(** A version the scans of [getLast] and [getFiltered] stop at or keep: its
    id is in the existing-set and its delete-mark header is empty (a live
    payload version) or the full-object sentinel (a delete marker). *)
Definition qualifies (existedVersions : list string) (oi : ObjectInfo) : bool :=
  contains existedVersions (Version oi)
  && (String.eqb (delMarkOf oi) "" || String.eqb (delMarkOf oi) delMarkFullObject).

(** The total order of versions: no element is [less] than an earlier one. *)
Definition ascending (l : list ObjectInfo) : Prop :=
  StronglySorted (fun a b => less b a = false) l.

(** The dirty flag tells the truth: a set flagged sorted is sorted. *)
Definition flag_sound (v : objectVersions) : Prop :=
  isSorted v = true -> ascending (objects v).

(** A listing sequence sorted by key name. *)
Definition sorted_by_name (l : list ObjectInfo) : Prop :=
  StronglySorted (fun a b => GoString.le (Name a) (Name b) = true) l.

(** The test of [triageVersions]: the entry is a delete marker. *)
Definition isDeleteMarker (version : ObjectVersionInfo) : bool :=
  String.eqb (hdr (Headers (Object version)) versionsDeleteMarkAttr)
             delMarkFullObject.

Section Reachable.
Context `{SliceSorter}.

(** The version sets that arise from [newObjectVersions] by folding
    versions in and sorting in place. *)
Inductive reachable : objectVersions -> Prop :=
  | reachable_new nm : reachable (newObjectVersions nm)
  | reachable_append v oi : reachable v -> reachable (appendVersion v oi)
  | reachable_sort v : reachable v -> reachable (sort v).

End Reachable.

(** * Properties *)

(** ** The order on Go strings *)

Module GoStringFacts.
Import GoString.

Lemma compare_refl s : String.compare s s = Eq.
Proof.
  induction s as [|c s IH]; simpl; [done|].
  unfold Ascii.compare. by rewrite N.compare_refl.
Qed.

Lemma compare_lt_trans a b c :
  String.compare a b = Lt -> String.compare b c = Lt -> String.compare a c = Lt.
Proof.
  revert b c. induction a as [|x a IH]; intros [|y b] [|z c]; simpl; try done.
  unfold Ascii.compare.
  destruct (N.compare_spec (N_of_ascii x) (N_of_ascii y)) as [Exy|Lxy|Gxy];
    try done;
    destruct (N.compare_spec (N_of_ascii y) (N_of_ascii z)) as [Eyz|Lyz|Gyz];
    try done; intros Hab Hbc.
  - rewrite Exy, Eyz, N.compare_refl. eauto.
  - rewrite Exy. by apply N.compare_lt_iff in Lyz as ->.
  - rewrite <- Eyz. by apply N.compare_lt_iff in Lxy as ->.
  - assert (N_of_ascii x < N_of_ascii z)%N as Hlt by lia.
    by apply N.compare_lt_iff in Hlt as ->.
Qed.

Lemma lt_irrefl s : lt s s = false.
Proof. unfold lt, String.ltb. by rewrite compare_refl. Qed.

Lemma lt_asym s t : lt s t = true -> lt t s = false.
Proof.
  unfold lt, String.ltb. rewrite (String.compare_antisym t s).
  by destruct (String.compare s t).
Qed.

Lemma lt_trans a b c : lt a b = true -> lt b c = true -> lt a c = true.
Proof.
  unfold lt, String.ltb. intros Hab Hbc.
  destruct (String.compare a b) eqn:Eab; try done.
  destruct (String.compare b c) eqn:Ebc; try done.
  by rewrite (compare_lt_trans a b c).
Qed.

Lemma le_not_lt s t : le s t = negb (lt t s).
Proof.
  unfold le, lt, String.leb, String.ltb. rewrite (String.compare_antisym t s).
  by destruct (String.compare s t).
Qed.

Lemma lt_false_eq s t : lt s t = false -> lt t s = false -> s = t.
Proof.
  unfold lt, String.ltb. rewrite (String.compare_antisym t s).
  destruct (String.compare s t) eqn:E; try done.
  intros _ _. by apply String.compare_eq_iff.
Qed.

Lemma lt_total s t : lt s t = true \/ s = t \/ lt t s = true.
Proof.
  destruct (lt s t) eqn:E1; [by left|].
  destruct (lt t s) eqn:E2; [by right; right|].
  right; left. by apply lt_false_eq.
Qed.

(** Negative transitivity: [a <= b] and [b <= c] give [a <= c]. *)
Lemma lt_false_trans a b c :
  lt b a = false -> lt c b = false -> lt c a = false.
Proof.
  intros Hba Hcb. destruct (lt c a) eqn:Hca; [|done].
  destruct (lt_total a b) as [Hab|[->|Hab]].
  - by rewrite (lt_trans c a b) in Hcb.
  - congruence.
  - congruence.
Qed.

Lemma le_trans a b c : le a b = true -> le b c = true -> le a c = true.
Proof.
  rewrite !le_not_lt, !negb_true_iff. intros H1 H2.
  exact (lt_false_trans _ _ _ H1 H2).
Qed.

Lemma lt_le_trans a b c : lt a b = true -> le b c = true -> lt a c = true.
Proof.
  rewrite le_not_lt, negb_true_iff. intros H1 H2.
  destruct (lt a c) eqn:E; [done|].
  by rewrite (lt_false_trans _ _ _ H2 E) in H1.
Qed.

End GoStringFacts.

(** ** Merge sort is a [SliceSorter] *)

Lemma merge_sort_by_sorted {A : Type} (lt : A -> A -> bool) (l : list A) :
  (forall x y, lt x y = true -> lt y x = false) ->
  (forall x y z, lt y x = false -> lt z y = false -> lt z x = false) ->
  StronglySorted (fun a b => lt b a = false) (merge_sort_by lt l).
Proof.
  intros Hasym Htrans. unfold merge_sort_by.
  apply StronglySorted_merge_sort.
  - intros x y z Hxy Hyz. exact (Htrans x y z Hxy Hyz).
  - intros x y. destruct (lt y x) eqn:E; [right; by apply Hasym | by left].
Qed.

#[export] Instance mergeSorter : SliceSorter := {|
  sort_slice := @merge_sort_by;
  sort_slice_perm := fun A lt l => merge_sort_Permutation _ l;
  sort_slice_sorted := @merge_sort_by_sorted
|}.


(** ** The total order on versions *)

Lemma less_irrefl x : less x x = false.
Proof.
  unfold less. rewrite N.eqb_refl. apply GoStringFacts.lt_irrefl.
Qed.

Lemma less_asym x y : less x y = true -> less y x = false.
Proof.
  unfold less. rewrite (N.eqb_sym (CreationEpoch y)).
  destruct (N.eqb_spec (CreationEpoch x) (CreationEpoch y)) as [E|E].
  - apply GoStringFacts.lt_asym.
  - rewrite !N.ltb_lt, N.ltb_ge. lia.
Qed.

Lemma less_neg_trans x y z :
  less y x = false -> less z y = false -> less z x = false.
Proof.
  unfold less.
  destruct (N.eqb_spec (CreationEpoch y) (CreationEpoch x)) as [E1|E1];
    destruct (N.eqb_spec (CreationEpoch z) (CreationEpoch y)) as [E2|E2];
    destruct (N.eqb_spec (CreationEpoch z) (CreationEpoch x)) as [E3|E3];
    rewrite ?N.ltb_ge; try lia; try congruence.
  apply GoStringFacts.lt_false_trans.
Qed.

(** Two versions neither of which is before the other agree on epoch and
    version id. *)
Lemma less_neither x y :
  less x y = false -> less y x = false ->
  CreationEpoch x = CreationEpoch y /\ Version x = Version y.
Proof.
  unfold less. rewrite (N.eqb_sym (CreationEpoch y)).
  destruct (N.eqb_spec (CreationEpoch x) (CreationEpoch y)) as [E|E].
  - intros H1 H2. split; [done|]. by apply GoStringFacts.lt_false_eq.
  - rewrite !N.ltb_ge. lia.
Qed.

Lemma less_total x y :
  less x y = true \/ less y x = true \/
  (CreationEpoch x = CreationEpoch y /\ Version x = Version y).
Proof.
  destruct (less x y) eqn:E1; [by left|].
  destruct (less y x) eqn:E2; [by right; left|].
  right; right. by apply less_neither.
Qed.

(** ** Lists of ids *)

Lemma contains_In l x : contains l x = true <-> In x l.
Proof.
  induction l as [|y l IH]; simpl; [split; [done|tauto]|].
  destruct (String.eqb_spec x y) as [->|Hne].
  - split; auto.
  - rewrite IH. split; [auto|]. intros [Heq|Hin]; [congruence|done].
Qed.

Lemma contains_false l x : contains l x = false <-> ~ In x l.
Proof.
  rewrite <- contains_In. destruct (contains l x); split; congruence.
Qed.

Lemma appendMissing_In acc xs x :
  In x (appendMissing acc xs) <-> In x acc \/ In x xs.
Proof.
  unfold appendMissing. revert acc.
  induction xs as [|y xs IH]; intros acc; simpl; [tauto|].
  rewrite IH. destruct (contains acc y) eqn:E.
  - apply contains_In in E. split; [tauto|].
    intros [Hacc|[->|Hxs]]; auto.
  - rewrite in_app_iff. simpl. tauto.
Qed.

(** Appending ids that are all present already leaves the list as it is. *)
Lemma appendMissing_present acc xs :
  (forall x, In x xs -> In x acc) -> appendMissing acc xs = acc.
Proof.
  unfold appendMissing. induction xs as [|y xs IH]; intros Hall; simpl; [done|].
  assert (contains acc y = true) as -> by (apply contains_In, Hall; by left).
  apply IH. intros x Hx. apply Hall. by right.
Qed.

Lemma getExistedVersions_In v x :
  In x (getExistedVersions v) <-> In x (addList v) /\ ~ In x (delList v).
Proof.
  unfold getExistedVersions. rewrite filter_In, negb_true_iff, contains_false.
  tauto.
Qed.

(** ** Folding versions into a version set *)

Lemma fold_addList l v x :
  In x (addList (fold_left appendVersion l v)) <->
  In x (addList v) \/ exists oi, In oi l /\ In x (addVersOf oi).
Proof.
  revert v. induction l as [|o l IH]; intros v; simpl.
  - split; [auto|]. intros [?|(?&[]&?)]; done.
  - rewrite IH. simpl. rewrite appendMissing_In. split.
    + intros [[?|?]|(oi&?&?)]; eauto 6.
    + intros [?|(oi&[<-|?]&?)]; eauto 6.
Qed.

Lemma fold_delList l v x :
  In x (delList (fold_left appendVersion l v)) <->
  In x (delList v) \/ exists oi, In oi l /\ In x (delVersOf oi).
Proof.
  revert v. induction l as [|o l IH]; intros v; simpl.
  - split; [auto|]. intros [?|(?&[]&?)]; done.
  - rewrite IH. simpl. rewrite appendMissing_In. split.
    + intros [[?|?]|(oi&?&?)]; eauto 6.
    + intros [?|(oi&[<-|?]&?)]; eauto 6.
Qed.

Lemma fold_objects l v :
  objects (fold_left appendVersion l v) = objects v ++ l.
Proof.
  revert v. induction l as [|o l IH]; intros v; simpl.
  - by rewrite app_nil_r.
  - rewrite IH. simpl. by rewrite <- app_assoc.
Qed.

Lemma elem_of_addUnion l x :
  x ∈ addUnion l <-> exists oi, In oi l /\ In x (addVersOf oi).
Proof.
  unfold addUnion. rewrite elem_of_union_list. split.
  - intros (X & HX & Hx). apply list_elem_of_fmap in HX as (oi & -> & Hoi).
    exists oi. rewrite elem_of_list_to_set in Hx.
    by rewrite <- !list_elem_of_In.
  - intros (oi & Hoi & Hx). exists (list_to_set (addVersOf oi)). split.
    + apply list_elem_of_fmap. exists oi. by rewrite list_elem_of_In.
    + by rewrite elem_of_list_to_set, list_elem_of_In.
Qed.

Lemma elem_of_delUnion l x :
  x ∈ delUnion l <-> exists oi, In oi l /\ In x (delVersOf oi).
Proof.
  unfold delUnion. rewrite elem_of_union_list. split.
  - intros (X & HX & Hx). apply list_elem_of_fmap in HX as (oi & -> & Hoi).
    exists oi. rewrite elem_of_list_to_set in Hx.
    by rewrite <- !list_elem_of_In.
  - intros (oi & Hoi & Hx). exists (list_to_set (delVersOf oi)). split.
    + apply list_elem_of_fmap. exists oi. by rewrite list_elem_of_In.
    + by rewrite elem_of_list_to_set, list_elem_of_In.
Qed.

Lemma elem_of_existingSet v x :
  x ∈ existingSet v <-> In x (addList v) /\ ~ In x (delList v).
Proof.
  unfold existingSet.
  by rewrite elem_of_list_to_set, list_elem_of_In, getExistedVersions_In.
Qed.

(** The existing-set of a fold is the union of the add-lists minus the
    union of the del-lists of the versions folded. *)
Lemma existingSet_foldVersions nm l :
  existingSet (foldVersions nm l) = addUnion l ∖ delUnion l.
Proof.
  apply set_eq. intros x.
  rewrite elem_of_difference, elem_of_existingSet, elem_of_addUnion,
    elem_of_delUnion.
  unfold foldVersions. rewrite fold_addList, fold_delList. simpl. tauto.
Qed.

Lemma addUnion_perm l1 l2 : l1 ≡ₚ l2 -> addUnion l1 = addUnion l2.
Proof.
  intros Hp. apply set_eq. intros x. rewrite !elem_of_addUnion.
  split; intros (oi & Hoi & Hx); exists oi; split; try done.
  - by apply (Permutation_in _ Hp).
  - by apply (Permutation_in _ (Permutation_sym Hp)).
Qed.

Lemma delUnion_perm l1 l2 : l1 ≡ₚ l2 -> delUnion l1 = delUnion l2.
Proof.
  intros Hp. apply set_eq. intros x. rewrite !elem_of_delUnion.
  split; intros (oi & Hoi & Hx); exists oi; split; try done.
  - by apply (Permutation_in _ Hp).
  - by apply (Permutation_in _ (Permutation_sym Hp)).
Qed.

Lemma addList_foldVersions nm l :
  list_to_set (addList (foldVersions nm l)) = addUnion l.
Proof.
  apply set_eq. intros x.
  rewrite elem_of_list_to_set, list_elem_of_In, elem_of_addUnion.
  unfold foldVersions. rewrite fold_addList. simpl. tauto.
Qed.

Lemma delList_foldVersions nm l :
  list_to_set (delList (foldVersions nm l)) = delUnion l.
Proof.
  apply set_eq. intros x.
  rewrite elem_of_list_to_set, list_elem_of_In, elem_of_delUnion.
  unfold foldVersions. rewrite fold_delList. simpl. tauto.
Qed.

(** C4: folding one collection of physical versions in two orders yields
    the same add-set, the same del-set and the same existing-set, the
    union of all add-lists minus the union of all del-lists: folding
    commutes on the derived sets. *)
Theorem existing_independent_of_fold_order nm (l1 l2 : list ObjectInfo) :
  l1 ≡ₚ l2 ->
  existingSet (foldVersions nm l1) = addUnion l1 ∖ delUnion l1
  /\ list_to_set (addList (foldVersions nm l1))
     =@{gset string} list_to_set (addList (foldVersions nm l2))
  /\ list_to_set (delList (foldVersions nm l1))
     =@{gset string} list_to_set (delList (foldVersions nm l2))
  /\ existingSet (foldVersions nm l1) = existingSet (foldVersions nm l2).
Proof.
  intros Hp. split; [apply existingSet_foldVersions|].
  rewrite !existingSet_foldVersions, !addList_foldVersions, !delList_foldVersions.
  by rewrite (addUnion_perm _ _ Hp), (delUnion_perm _ _ Hp).
Qed.

(** ** Sorting in place and the reachable version sets *)

Section VersioningFacts.
Context `{SliceSorter}.

Lemma sort_objects_perm v : objects (sort v) ≡ₚ objects v.
Proof.
  unfold sort. destruct (isSorted v); simpl; [done|]. apply sort_slice_perm.
Qed.

Lemma sort_ascending v : flag_sound v -> ascending (objects (sort v)).
Proof.
  intros Hv. unfold sort. destruct (isSorted v) eqn:E; simpl; [by apply Hv|].
  apply sort_slice_sorted; [apply less_asym|apply less_neg_trans].
Qed.

Lemma sort_existed v : getExistedVersions (sort v) = getExistedVersions v.
Proof. unfold sort. by destruct (isSorted v). Qed.

Lemma sort_lists v : addList (sort v) = addList v /\ delList (sort v) = delList v.
Proof. unfold sort. by destruct (isSorted v). Qed.

Lemma reachable_flag_sound v : reachable v -> flag_sound v.
Proof.
  induction 1 as [nm|v oi _ _|v _ IH]; unfold flag_sound; simpl; try done.
  intros _. by apply sort_ascending.
Qed.

(** Every version folded into a reachable set has left its add-list, its
    own id and its del-list in the lists of the set. *)
Lemma reachable_covers v :
  reachable v ->
  forall oi, In oi (objects v) ->
    (forall x, In x (addVersOf oi) -> In x (addList v))
    /\ (forall x, In x (delVersOf oi) -> In x (delList v)).
Proof.
  induction 1 as [nm|v o _ IH|v _ IH]; intros oi Hoi.
  - destruct Hoi.
  - simpl in *. apply in_app_iff in Hoi as [Hoi|[<-|[]]].
    + destruct (IH oi Hoi) as [Ha Hd].
      split; intros x Hx; apply appendMissing_In; left; auto.
    + split; intros x Hx; apply appendMissing_In; by right.
  - destruct (sort_lists v) as [-> ->]. apply IH.
    apply (Permutation_in _ (sort_objects_perm v)), Hoi.
Qed.

Lemma ascending_filter f l : ascending l -> ascending (List.filter f l).
Proof.
  unfold ascending. induction 1 as [|x l Hl IH Hx]; simpl; [constructor|].
  destruct (f x); [|done]. constructor; [done|].
  rewrite Forall_forall in *. intros y Hy. apply Hx.
  apply list_elem_of_In. apply list_elem_of_In in Hy.
  by apply filter_In in Hy as [? _].
Qed.

(** The loop of [getLast] stops at the first version that qualifies. *)
Lemma getLastLoop_find ex l :
  getLastLoop ex l =
  match List.find (qualifies ex) l with
  | Some oi =>
      if String.eqb (delMarkOf oi) delMarkFullObject then None else Some oi
  | None => None
  end.
Proof.
  induction l as [|oi l IH]; simpl; [done|].
  unfold qualifies at 1. destruct (contains ex (Version oi)); simpl; [|done].
  destruct (String.eqb_spec (delMarkOf oi) "") as [E|E]; simpl.
  - rewrite E. reflexivity.
  - destruct (String.eqb (delMarkOf oi) delMarkFullObject) eqn:E'; simpl.
    + by rewrite E'.
    + exact IH.
Qed.

(** C1 (as amended): [getLast] leaves the versions in total order (creation
    epoch, then version id), scans them from the newest to the oldest and
    skips every version whose id is not in the existing-set or whose
    delete-mark header names one specific version; the first version left
    is the answer, unless its delete-mark header is the full-object
    sentinel, in which case, as when no version is left, the answer is
    "not found". *)
Theorem getLast_resolution v :
  reachable v ->
  objects (snd (getLast v)) ≡ₚ objects v
  /\ ascending (objects (snd (getLast v)))
  /\ fst (getLast v) =
     match List.find (qualifies (getExistedVersions v))
                     (reverse (objects (snd (getLast v)))) with
     | Some oi =>
         if String.eqb (delMarkOf oi) delMarkFullObject then None else Some oi
     | None => None
     end.
Proof.
  intros Hv. apply reachable_flag_sound in Hv.
  unfold getLast. destruct (objects v) as [|o l] eqn:E; simpl.
  - rewrite E. repeat split; [done|constructor].
  - rewrite <- E. repeat split.
    + apply sort_objects_perm.
    + by apply sort_ascending.
    + rewrite sort_existed. apply getLastLoop_find.
Qed.

(** C3 (as amended): [getFiltered] leaves the versions in total order and
    returns, in that order, exactly the versions whose id is in the
    existing-set and whose delete-mark header is empty (a live payload
    version) or the full-object sentinel (a delete marker); the versions
    whose delete-mark header names one specific version are left out. *)
Theorem getFiltered_history v :
  reachable v ->
  objects (snd (getFiltered v)) ≡ₚ objects v
  /\ ascending (objects (snd (getFiltered v)))
  /\ fst (getFiltered v) =
     List.filter (qualifies (getExistedVersions v)) (objects (snd (getFiltered v)))
  /\ ascending (fst (getFiltered v))
  /\ forall oi, In oi (fst (getFiltered v)) ->
       In (Version oi) (getExistedVersions v)
       /\ (delMarkOf oi = EmptyString \/ delMarkOf oi = delMarkFullObject).
Proof.
  intros Hv. apply reachable_flag_sound in Hv.
  assert (forall ex l,
    List.filter (fun version =>
      contains ex (Version version)
      && (String.eqb (delMarkOf version) delMarkFullObject
          || String.eqb (delMarkOf version) "")) l
    = List.filter (qualifies ex) l) as Hfilter.
  { intros ex l. apply filter_ext. intros a. unfold qualifies.
    by rewrite (orb_comm (String.eqb (delMarkOf a) delMarkFullObject)). }
  unfold getFiltered. destruct (objects v) as [|o l] eqn:E; simpl.
  - rewrite E. repeat split; try done; constructor.
  - rewrite <- E, Hfilter, sort_existed.
    split; [apply sort_objects_perm|].
    split; [by apply sort_ascending|].
    split; [done|].
    split; [by apply ascending_filter, sort_ascending|].
    intros oi Hoi. apply filter_In in Hoi as [_ Hq].
    unfold qualifies in Hq. apply andb_true_iff in Hq as [Hc Hm].
    split; [by apply contains_In|].
    apply orb_true_iff in Hm as [Hm|Hm]; apply String.eqb_eq in Hm; auto.
Qed.

End VersioningFacts.

(** ** Replaying a version *)

Section Replay.
Context `{SliceSorter}.

Lemma ascending_dup pre oi post :
  ascending (pre ++ oi :: post) -> ascending (pre ++ oi :: oi :: post).
Proof.
  unfold ascending. rewrite !StronglySorted_app, !StronglySorted_cons.
  intros (Hcross & Hpre & Hoi & Hpost). repeat split; try done.
  - intros x1 x2 Hx1 Hx2. apply Hcross; [done|].
    apply elem_of_cons in Hx2 as [->|Hx2]; [by left|done].
  - constructor; [apply less_irrefl|done].
Qed.

Lemma getLastLoop_dup ex a oi b :
  getLastLoop ex (a ++ oi :: oi :: b) = getLastLoop ex (a ++ oi :: b).
Proof.
  induction a as [|x a IH]; simpl.
  - destruct (contains ex (Version oi)); [|done].
    destruct (String.eqb (delMarkOf oi) ""); [done|].
    by destruct (String.eqb (delMarkOf oi) delMarkFullObject).
  - by rewrite IH.
Qed.

(** With unique version ids the total order has no ties between distinct
    versions, so a sorted permutation is determined. *)
Lemma ascending_unique l1 l2 :
  unique_ids l1 -> ascending l1 -> ascending l2 -> l1 ≡ₚ l2 -> l1 = l2.
Proof.
  intros Hu H1 H2 Hp.
  apply (StronglySorted_unique_strong (fun a b => less b a = false) l1 l2);
    try done.
  intros x1 x2 Hx1 Hx2 Hle1 Hle2.
  apply Hu.
  - by apply list_elem_of_In.
  - apply list_elem_of_In. by rewrite Hp.
  - by destruct (less_neither x1 x2 Hle2 Hle1).
Qed.

Lemma unique_ids_perm l1 l2 : l1 ≡ₚ l2 -> unique_ids l1 -> unique_ids l2.
Proof.
  intros Hp Hu a b Ha Hb. apply Hu; by apply (Permutation_in _ (Permutation_sym Hp)).
Qed.

Lemma getLast_nonempty v :
  objects v <> [] ->
  fst (getLast v)
  = getLastLoop (getExistedVersions v) (reverse (objects (sort v))).
Proof.
  intros Hne. unfold getLast. destruct (objects v) eqn:E; [done|].
  simpl. by rewrite sort_existed.
Qed.

(** C5: folding a version that was folded in before once more changes
    neither the existing-set nor the version [getLast] resolves to.
    Version ids are taken to identify the physical versions of the set, as
    the backend assigns them. *)
Theorem replay_idempotent v oi :
  reachable v ->
  In oi (objects v) ->
  unique_ids (objects v) ->
  getExistedVersions (appendVersion v oi) = getExistedVersions v
  /\ fst (getLast (appendVersion v oi)) = fst (getLast v).
Proof.
  intros Hv Hoi Hu.
  destruct (reachable_covers v Hv oi Hoi) as [Hadd Hdel].
  assert (addList (appendVersion v oi) = addList v) as Ea
    by (simpl; by apply appendMissing_present).
  assert (delList (appendVersion v oi) = delList v) as Ed
    by (simpl; by apply appendMissing_present).
  assert (getExistedVersions (appendVersion v oi) = getExistedVersions v) as Eex
    by (unfold getExistedVersions; by rewrite Ea, Ed).
  split; [done|].
  pose proof (sort_objects_perm v) as Hp1.
  pose proof (sort_ascending v (reachable_flag_sound v Hv)) as Hs1.
  assert (In oi (objects (sort v))) as Hin
    by (by apply (Permutation_in _ (Permutation_sym Hp1))).
  apply in_split in Hin as (pre & post & Esplit).
  assert (sort_slice less (objects v ++ [oi]) = pre ++ oi :: oi :: post) as E2.
  { symmetry. apply ascending_unique.
    - apply (unique_ids_perm (oi :: objects v)).
      + rewrite <- Hp1, Esplit. by rewrite Permutation_middle.
      + intros a b Ha Hb. apply Hu.
        * destruct Ha as [<-|Ha]; done.
        * destruct Hb as [<-|Hb]; done.
    - apply ascending_dup. by rewrite <- Esplit.
    - apply sort_slice_sorted; [apply less_asym|apply less_neg_trans].
    - rewrite sort_slice_perm, <- Hp1, Esplit.
      rewrite <- Permutation_cons_append. by rewrite Permutation_middle. }
  assert (objects (sort (appendVersion v oi))
          = sort_slice less (objects v ++ [oi])) as Esort by done.
  rewrite !getLast_nonempty.
  - rewrite Eex, Esort, E2, Esplit.
    rewrite !reverse_app, !reverse_cons, <- !app_assoc. simpl.
    apply getLastLoop_dup.
  - intros E. rewrite E in Hoi. destruct Hoi.
  - simpl. by destruct (objects v).
Qed.

End Replay.

(** ** Version sets of one key, worked *)

Definition sampleVersion (id : string) (epoch : N)
    (headers : list (string * string)) : ObjectInfo :=
  mkObjectInfo id "bucket" "key" false 0 epoch (list_to_map headers).

(** Two plain writes, a full-object delete marker, and a delete of the
    specific version [A]. *)
Definition verA : ObjectInfo := sampleVersion "A" 1 [].
Definition verB : ObjectInfo := sampleVersion "B" 2 [(versionsAddAttr, "A")].
Definition verC : ObjectInfo :=
  sampleVersion "C" 3 [(versionsAddAttr, "A,B"); (versionsDeleteMarkAttr, "*")].
Definition verD : ObjectInfo :=
  sampleVersion "D" 3 [(versionsAddAttr, "A,B"); (versionsDelAttr, "A");
                       (versionsDeleteMarkAttr, "A")].

Lemma reachable_foldVersions `{SliceSorter} nm l : reachable (foldVersions nm l).
Proof.
  unfold foldVersions. generalize (reachable_new nm).
  generalize (newObjectVersions nm). induction l as [|oi l IH]; intros v Hv.
  - exact Hv.
  - simpl. apply IH. by constructor.
Defined.

(** The example of the specification: of the versions [A] and [B] the
    newer one is current; after a full-object delete marker nothing is. *)
Example getLast_two_versions :
  fst (getLast (foldVersions "key" [verA; verB])) = Some verB.
Proof. vm_compute. reflexivity. Qed.

Example getLast_after_delete_marker :
  fst (getLast (foldVersions "key" [verA; verB; verC])) = None.
Proof. vm_compute. reflexivity. Qed.

Lemma getLast_resolution_witness :
  let v := foldVersions "key" [verB; verC; verA] in
  reachable v
  /\ (objects (snd (getLast v)) ≡ₚ objects v
      /\ ascending (objects (snd (getLast v)))
      /\ fst (getLast v) =
         match List.find (qualifies (getExistedVersions v))
                         (reverse (objects (snd (getLast v)))) with
         | Some oi =>
             if String.eqb (delMarkOf oi) delMarkFullObject then None
             else Some oi
         | None => None
         end).
Proof.
  split; [apply reachable_foldVersions|].
  apply getLast_resolution, reachable_foldVersions.
Defined.

(** C1, as worded, fails: after a delete of the specific version [A] the
    newest version in the existing-set is the marker [D] of that delete,
    which the claim makes the answer; the code passes over it and resolves
    to [B]. *)
Lemma getLast_as_worded_counterexample :
  let v := foldVersions "key" [verA; verB; verD] in
  fst (getLast v) = Some verB
  /\ getLast_as_worded (getExistedVersions v)
       (reverse (objects (snd (getLast v)))) = Some verD
  /\ fst (getLast v)
     <> getLast_as_worded (getExistedVersions v)
          (reverse (objects (snd (getLast v)))).
Proof.
  split; [vm_compute; reflexivity|].
  split; [vm_compute; reflexivity|].
  vm_compute. discriminate.
Qed.

Lemma getFiltered_history_witness :
  let v := foldVersions "key" [verB; verD; verA] in
  reachable v
  /\ (objects (snd (getFiltered v)) ≡ₚ objects v
      /\ ascending (objects (snd (getFiltered v)))
      /\ fst (getFiltered v) =
         List.filter (qualifies (getExistedVersions v))
                     (objects (snd (getFiltered v)))
      /\ ascending (fst (getFiltered v))
      /\ forall oi, In oi (fst (getFiltered v)) ->
           In (Version oi) (getExistedVersions v)
           /\ (delMarkOf oi = EmptyString \/ delMarkOf oi = delMarkFullObject)).
Proof.
  split; [apply reachable_foldVersions|].
  apply getFiltered_history, reachable_foldVersions.
Defined.

(** C3, as worded, fails on the same set: [D] is in the existing-set and
    is not returned. *)
Lemma getFiltered_as_worded_counterexample :
  let v := foldVersions "key" [verA; verB; verD] in
  In (Version verD) (getExistedVersions v)
  /\ fst (getFiltered v) = [verB]
  /\ getFiltered_as_worded (getExistedVersions v)
       (objects (snd (getFiltered v))) = [verB; verD]
  /\ fst (getFiltered v)
     <> getFiltered_as_worded (getExistedVersions v)
          (objects (snd (getFiltered v))).
Proof.
  split; [vm_compute; auto|].
  split; [vm_compute; reflexivity|].
  split; [vm_compute; reflexivity|].
  vm_compute. discriminate.
Qed.

Lemma existing_independent_of_fold_order_witness :
  [verD; verA; verB] ≡ₚ [verA; verB; verD]
  /\ existingSet (foldVersions "key" [verD; verA; verB])
     = addUnion [verD; verA; verB] ∖ delUnion [verD; verA; verB]
  /\ list_to_set (addList (foldVersions "key" [verD; verA; verB]))
     =@{gset string} list_to_set (addList (foldVersions "key" [verA; verB; verD]))
  /\ list_to_set (delList (foldVersions "key" [verD; verA; verB]))
     =@{gset string} list_to_set (delList (foldVersions "key" [verA; verB; verD]))
  /\ existingSet (foldVersions "key" [verD; verA; verB])
     = existingSet (foldVersions "key" [verA; verB; verD]).
Proof.
  assert ([verD; verA; verB] ≡ₚ [verA; verB; verD]) as Hp
    by apply (Permutation_cons_append [verA; verB] verD).
  split; [exact Hp|].
  exact (existing_independent_of_fold_order "key" _ _ Hp).
Defined.

Lemma sample_unique_ids : unique_ids [verA; verB; verC].
Proof.
  intros a b Ha Hb. simpl in Ha, Hb.
  destruct Ha as [<-|[<-|[<-|[]]]]; destruct Hb as [<-|[<-|[<-|[]]]];
    intros E; try reflexivity; vm_compute in E; discriminate E.
Defined.

Lemma replay_idempotent_witness :
  let v := foldVersions "key" [verA; verB; verC] in
  reachable v
  /\ In verB (objects v)
  /\ unique_ids (objects v)
  /\ getExistedVersions (appendVersion v verB) = getExistedVersions v
  /\ fst (getLast (appendVersion v verB)) = fst (getLast v).
Proof.
  split; [apply reachable_foldVersions|].
  split; [right; left; reflexivity|].
  split; [exact sample_unique_ids|].
  apply replay_idempotent.
  - apply reachable_foldVersions.
  - right; left; reflexivity.
  - exact sample_unique_ids.
Defined.

(** ** The write-time header merge *)

Lemma additionalDelLoop_ids unv : snd (additionalDelLoop unv) = map ID unv.
Proof.
  unfold additionalDelLoop.
  assert (forall i s ids,
    snd (snd (fold_left
      (fun '(i, (additionalDel, idsToDeleteArr)) del =>
         let additionalDel :=
           if (i =? 0)%nat then additionalDel
           else (additionalDel ++ ",")%string in
         (S i, ((additionalDel ++ Version del)%string,
                idsToDeleteArr ++ [ID del])))
      unv (i, (s, ids)))) = ids ++ map ID unv) as Hgen.
  { induction unv as [|o unv IH]; intros i s ids; simpl.
    - by rewrite app_nil_r.
    - rewrite IH. by rewrite <- app_assoc. }
  apply (Hgen 0%nat EmptyString []).
Qed.

(** What the merge does for a non-empty prior set when versioning is
    disabled, whatever the incoming header: the write is marked
    unversioned, the prior add-list is propagated, and the ids returned for
    physical deletion are those of the prior unversioned versions. *)
Lemma updateCRDT2PSetHeaders_disabled header versions :
  isEmpty versions = false ->
  hdr (fst (updateCRDT2PSetHeaders header versions false))
      versionsUnversionedAttr = "true"
  /\ (isAddListEmpty versions = false ->
      hdr (fst (updateCRDT2PSetHeaders header versions false)) versionsAddAttr
      = getAddHeader versions)
  /\ snd (updateCRDT2PSetHeaders header versions false)
     = map ID (unversioned versions).
Proof.
  intros Hne. unfold updateCRDT2PSetHeaders. rewrite Hne. simpl negb. cbv iota.
  pose proof (additionalDelLoop_ids (unversioned versions)) as Hids.
  destruct (additionalDelLoop (unversioned versions)) as [additionalDel ids].
  simpl in Hids. subst ids. simpl fst. simpl snd.
  assert (versionsDelAttr <> versionsUnversionedAttr) as N1 by done.
  assert (versionsDelAttr <> versionsAddAttr) as N2 by done.
  assert (versionsAddAttr <> versionsUnversionedAttr) as N3 by done.
  unfold hdr. split; [|split; [|done]].
  - repeat match goal with
           | |- context [if ?b then _ else _] => destruct b
           end;
      rewrite ?(lookup_insert_ne _ versionsDelAttr) by done;
      rewrite ?(lookup_insert_ne _ versionsAddAttr) by done;
      by rewrite lookup_insert_eq.
  - intros ->. simpl negb. cbv iota.
    repeat match goal with
           | |- context [if ?b then _ else _] => destruct b
           end;
      rewrite ?(lookup_insert_ne _ versionsDelAttr) by done;
      by rewrite lookup_insert_eq.
Qed.

(** A key with a versioned write [A] and a later unversioned write [U], in
    a bucket whose versioning is now off, and the header of a delete of the
    specific version [A]. *)
Definition verU : ObjectInfo :=
  sampleVersion "U" 2 [(versionsAddAttr, "A"); (versionsUnversionedAttr, "true")].

Definition priorAU : objectVersions := foldVersions "key" [verA; verU].

Definition deleteOfA : gmap string string :=
  list_to_map [(versionsDelAttr, "A"); (versionsDeleteMarkAttr, "A")].

(** C2 (the code at the failing input): with versioning disabled the id
    named by the incoming delete is not in the del-list written, which
    holds the unversioned id alone; with versioning enabled the same call
    keeps it. *)
Theorem updateCRDT2PSetHeaders_disabled_drops_incoming_delete :
  hdr deleteOfA versionsDelAttr = "A"
  /\ hdr deleteOfA versionsDeleteMarkAttr = "A"
  /\ isEmpty priorAU = false
  /\ hdr (fst (updateCRDT2PSetHeaders deleteOfA priorAU false)) versionsDelAttr = "U"
  /\ contains
       (splitVersions
          (hdr (fst (updateCRDT2PSetHeaders deleteOfA priorAU false)) versionsDelAttr))
       "A" = false
  /\ snd (updateCRDT2PSetHeaders deleteOfA priorAU false) = ["U"]
  /\ hdr (fst (updateCRDT2PSetHeaders deleteOfA priorAU true)) versionsDelAttr = "A".
Proof. repeat split; vm_compute; reflexivity. Qed.

(** ** A bucket with three keys, worked *)

(** Key [a] has two versions, keys [b] and [c] one each; the backend
    answers every search with the four ids and every head with the header
    of the id asked for. *)
Definition sampleMeta (oid : string) : error + ObjectMeta :=
  if String.eqb oid "1" then inr (mkObjectMeta "1" 1 {[ AttributeFileName := "a" ]})
  else if String.eqb oid "2" then
    inr (mkObjectMeta "2" 2 (<[versionsAddAttr := "1"]> {[ AttributeFileName := "a" ]}))
  else if String.eqb oid "3" then inr (mkObjectMeta "3" 3 {[ AttributeFileName := "b" ]})
  else if String.eqb oid "4" then inr (mkObjectMeta "4" 4 {[ AttributeFileName := "c" ]})
  else inl (ErrBackend "object not found").

Definition sampleLayer : layer :=
  {| bucketInfoOf := fun bucket => Ok (mkBucketInfo bucket "cid");
     poolSearchObject := fun _ _ => inr ["1"; "2"; "3"; "4"];
     poolGetObjectHeader := fun _ oid => sampleMeta oid;
     objectInfoFromMeta := fun bkt meta _ _ =>
       Some (mkObjectInfo (metaID meta) (bktName bkt)
               (hdr (metaAttributes meta) AttributeFileName) false 0
               (metaCreationEpoch meta)
               (delete AttributeFileName (metaAttributes meta)));
     createKey := fun cid method prefix delimiter =>
       Ok (cid ++ "/" ++ method ++ "/" ++ prefix ++ "/" ++ delimiter)%string |}.

Definition emptyStore : store := mkStore ∅ ∅ ∅ [].

Definition obj1 : ObjectInfo := mkObjectInfo "1" "bucket" "a" false 0 1 ∅.
Definition obj2 : ObjectInfo :=
  mkObjectInfo "2" "bucket" "a" false 0 2 {[ versionsAddAttr := "1" ]}.
Definition obj3 : ObjectInfo := mkObjectInfo "3" "bucket" "b" false 0 3 ∅.
Definition obj4 : ObjectInfo := mkObjectInfo "4" "bucket" "c" false 0 4 ∅.

Definition commonParams (maxKeys : Z) : ListObjectsParamsCommon.t :=
  ListObjectsParamsCommon.mk "bucket" "" "" maxKeys "".

Definition versionsParams (keyMarker versionIDMarker : string) (maxKeys : Z)
    : ListObjectVersionsParams.t :=
  ListObjectVersionsParams.mk "bucket" "" keyMarker maxKeys "" versionIDMarker "".

Example listAllObjects_sample :
  fst (listAllObjects sampleLayer (commonParams 10) emptyStore)
  = Ok [obj2; obj3; obj4].
Proof. vm_compute. reflexivity. Qed.

Example loadAllVersions_sample :
  fst (loadAllVersions sampleLayer (versionsParams "" "" 10) emptyStore)
  = Ok [obj1; obj2; obj3; obj4].
Proof. vm_compute. reflexivity. Qed.

(** ** Cursor application *)

Lemma le_refl_name s : GoString.le s s = true.
Proof. by rewrite GoStringFacts.le_not_lt, GoStringFacts.lt_irrefl. Qed.

Lemma filter_all {A : Type} (f : A -> bool) (l : list A) :
  (forall x, In x l -> f x = true) -> List.filter f l = l.
Proof.
  induction l as [|x l IH]; intros Hall; simpl; [done|].
  rewrite (Hall x) by (by left). f_equal. apply IH. intros y Hy. apply Hall. by right.
Qed.

Lemma filter_none {A : Type} (f : A -> bool) (l : list A) :
  (forall x, In x l -> f x = false) -> List.filter f l = [].
Proof.
  induction l as [|x l IH]; intros Hall; simpl; [done|].
  rewrite (Hall x) by (by left). apply IH. intros y Hy. apply Hall. by right.
Qed.

Lemma firstAfterName_filter startAfter l :
  sorted_by_name l ->
  firstAfterName startAfter l
  = List.filter (fun oi => GoString.gt (Name oi) startAfter) l.
Proof.
  unfold sorted_by_name. induction 1 as [|x l Hl IH Hx]; simpl; [done|].
  destruct (GoString.gt (Name x) startAfter) eqn:E; [|done].
  f_equal. symmetry. apply filter_all. intros y Hy.
  rewrite Forall_forall in Hx. apply list_elem_of_In, Hx in Hy.
  unfold GoString.gt in *.
  exact (GoStringFacts.lt_le_trans _ _ _ E Hy).
Qed.

Lemma sorted_by_name_last l lastObj :
  sorted_by_name l -> last l = Some lastObj ->
  forall x, In x l -> GoString.le (Name x) (Name lastObj) = true.
Proof.
  unfold sorted_by_name. intros Hs Hlast x Hx.
  apply last_Some in Hlast as [l' ->].
  apply StronglySorted_app in Hs as (Hcross & _ & _).
  apply in_app_iff in Hx as [Hx|[<-|[]]].
  - apply Hcross; [by apply list_elem_of_In|by left].
  - apply le_refl_name.
Qed.

(** On a sequence sorted by name [trimAfterObjectName] keeps exactly the
    elements whose name is strictly after the marker. *)
Lemma trimAfterObjectName_filter startAfter l :
  sorted_by_name l ->
  trimAfterObjectName startAfter l
  = List.filter (fun oi => GoString.gt (Name oi) startAfter) l.
Proof.
  intros Hs. unfold trimAfterObjectName.
  destruct (last l) as [lastObj|] eqn:Hlast; [|by apply firstAfterName_filter].
  destruct (GoString.le (Name lastObj) startAfter) eqn:E;
    [|by apply firstAfterName_filter].
  symmetry. apply filter_none. intros x Hx.
  pose proof (sorted_by_name_last l lastObj Hs Hlast x Hx) as Hle.
  pose proof (GoStringFacts.le_trans _ _ _ Hle E) as Hle'.
  rewrite GoStringFacts.le_not_lt in Hle'. unfold GoString.gt.
  by apply negb_true_iff.
Qed.

Lemma afterID_first id pre o post :
  ID o = id -> (forall x, In x pre -> ID x <> id) ->
  afterID id (pre ++ o :: post) = post.
Proof.
  intros Ho. induction pre as [|x pre IH]; intros Hpre; simpl.
  - by apply String.eqb_eq in Ho as ->.
  - assert (String.eqb (ID x) id = false) as ->
      by (apply String.eqb_neq, Hpre; by left).
    apply IH. intros y Hy. apply Hpre. by right.
Qed.

Lemma afterID_absent id l :
  (forall x, In x l -> ID x <> id) -> afterID id l = [].
Proof.
  induction l as [|x l IH]; intros Hl; simpl; [done|].
  assert (String.eqb (ID x) id = false) as ->
    by (apply String.eqb_neq, Hl; by left).
  apply IH. intros y Hy. apply Hl. by right.
Qed.

(** [trimAfterObjectID] keeps exactly what follows the element with the
    given id, when the id occurs once. *)
Lemma trimAfterObjectID_after id pre o post :
  ID o = id -> (forall x, In x pre \/ In x post -> ID x <> id) ->
  trimAfterObjectID id (pre ++ o :: post) = post.
Proof.
  intros Ho Hothers. unfold trimAfterObjectID.
  destruct (last (pre ++ o :: post)) as [lastObj|] eqn:Hlast.
  - destruct (String.eqb_spec (ID lastObj) id) as [E|E].
    + destruct post as [|y post' _] using rev_ind; [done|].
      rewrite app_comm_cons, app_assoc, last_snoc in Hlast.
      injection Hlast as <-. exfalso. apply (Hothers y); [|done].
      right. apply in_app_iff. right. by left.
    + apply afterID_first; [done|]. intros x Hx. apply Hothers. by left.
  - apply afterID_first; [done|]. intros x Hx. apply Hothers. by left.
Qed.

Lemma trimAfterObjectID_absent id l :
  (forall x, In x l -> ID x <> id) -> trimAfterObjectID id l = [].
Proof.
  intros Hl. unfold trimAfterObjectID.
  destruct (last l); [destruct (String.eqb _ id)|]; try done;
    by apply afterID_absent.
Qed.

(** The flat listings apply their cursors as C7 says: for V1 and
    start-after, a name-sorted sequence is trimmed to exactly the elements
    whose name is strictly after the marker, and to nothing when the last
    name is not after it; for the V2 continuation token, to exactly the
    elements that follow the element with that id (nothing when it is the
    last one or absent). *)
Lemma flat_cursor_application :
  (forall startAfter l,
     sorted_by_name l ->
     trimAfterObjectName startAfter l
     = List.filter (fun oi => GoString.gt (Name oi) startAfter) l
     /\ (forall lastObj, last l = Some lastObj ->
         GoString.le (Name lastObj) startAfter = true ->
         trimAfterObjectName startAfter l = []))
  /\ (forall id pre o post,
        ID o = id -> (forall x, In x pre \/ In x post -> ID x <> id) ->
        trimAfterObjectID id (pre ++ o :: post) = post)
  /\ (forall id l,
        (forall x, In x l -> ID x <> id) -> trimAfterObjectID id l = []).
Proof.
  split; [|split].
  - intros startAfter l Hs. split; [by apply trimAfterObjectName_filter|].
    intros lastObj Hlast Hle. unfold trimAfterObjectName. by rewrite Hlast, Hle.
  - apply trimAfterObjectID_after.
  - apply trimAfterObjectID_absent.
Qed.

Example flat_cursor_application_sample :
  sorted_by_name [obj2; obj3; obj4]
  /\ trimAfterObjectName "a" [obj2; obj3; obj4] = [obj3; obj4]
  /\ trimAfterObjectName "c" [obj2; obj3; obj4] = []
  /\ trimAfterObjectID "3" [obj2; obj3; obj4] = [obj4]
  /\ trimAfterObjectID "4" [obj2; obj3; obj4] = []
  /\ trimAfterObjectID "9" [obj2; obj3; obj4] = [].
Proof.
  split; [repeat constructor|]. repeat split; vm_compute; reflexivity.
Qed.

(** A bucket in which key [a] has the versions [9] (epoch 1) and [3]
    (epoch 2) and key [b] the version [5]: within a key the listing follows
    the epochs, not the ids. *)
Definition loopMeta (oid : string) : error + ObjectMeta :=
  if String.eqb oid "9" then inr (mkObjectMeta "9" 1 {[ AttributeFileName := "a" ]})
  else if String.eqb oid "3" then
    inr (mkObjectMeta "3" 2 (<[versionsAddAttr := "9"]> {[ AttributeFileName := "a" ]}))
  else if String.eqb oid "5" then inr (mkObjectMeta "5" 3 {[ AttributeFileName := "b" ]})
  else inl (ErrBackend "object not found").

Definition loopLayer : layer :=
  mkLayer (bucketInfoOf sampleLayer) (fun _ _ => inr ["9"; "3"; "5"])
          (fun _ oid => loopMeta oid) (objectInfoFromMeta sampleLayer)
          (createKey sampleLayer).

Definition objA9 : ObjectInfo := mkObjectInfo "9" "bucket" "a" false 0 1 ∅.
Definition objA3 : ObjectInfo :=
  mkObjectInfo "3" "bucket" "a" false 0 2 {[ versionsAddAttr := "9" ]}.
Definition objB5 : ObjectInfo := mkObjectInfo "5" "bucket" "b" false 0 3 ∅.

(** A sequence with one version of key [a] and two of key [b]. *)
Definition objA5 : ObjectInfo := mkObjectInfo "5" "bucket" "a" false 0 1 ∅.
Definition objB1 : ObjectInfo := mkObjectInfo "1" "bucket" "b" false 0 2 ∅.
Definition objB7 : ObjectInfo :=
  mkObjectInfo "7" "bucket" "b" false 0 3 {[ versionsAddAttr := "1" ]}.

(** C7 (the code at the failing inputs): the marker loop of
    [ListObjectVersions] tests key name and version id one by one, on a
    sequence that within a key follows the epochs.  A page of one over the
    versions [(a,9); (a,3); (b,5)] names [(a,3)] as next markers, and the
    request resumed with these markers starts at [(a,9)] again: the same
    page and the same markers come back.  With the markers [(a,6)] the
    entry [(b,1)], which is after the marker, is dropped.  A marker pair
    equal to an element keeps that element, also the last one, and a marker
    pair past every element leaves the whole sequence; none of these is
    "exactly the elements strictly after the marker". *)
Theorem ListObjectVersions_markers_misplace_cursor :
  fst (loadAllVersions loopLayer (versionsParams "" "" 1) emptyStore)
  = Ok [objA9; objA3; objB5]
  /\ fst (ListObjectVersions loopLayer (versionsParams "" "" 1) emptyStore)
     = Ok (ListObjectVersionsInfo.mk [] true "a" "a" "3"
             [mkObjectVersionInfo objA9 true] [] "9")
  /\ fst (ListObjectVersions loopLayer (versionsParams "a" "3" 1) emptyStore)
     = Ok (ListObjectVersionsInfo.mk [] true "a" "a" "3"
             [mkObjectVersionInfo objA9 true] [] "9")
  /\ applyMarkers "a" "3" [objA9; objA3; objB5] = [objA9; objA3; objB5]
  /\ applyMarkers "a" "6" [objA5; objB1; objB7] = [objB7]
  /\ applyMarkers "a" "1" [obj1; obj2; obj3; obj4] = [obj1; obj2; obj3; obj4]
  /\ applyMarkers_as_worded "a" "1" [obj1; obj2; obj3; obj4] = [obj2; obj3; obj4]
  /\ applyMarkers "c" "4" [obj1; obj2; obj3; obj4] = [obj4]
  /\ applyMarkers_as_worded "c" "4" [obj1; obj2; obj3; obj4] = []
  /\ applyMarkers "z" "9" [obj1; obj2; obj3; obj4] = [obj1; obj2; obj3; obj4].
Proof. repeat split; vm_compute; reflexivity. Qed.

(** ** Truncation *)

Lemma index_in_range {A : Type} (s : list A) (i : Z) :
  0 <= i < Z.of_nat (length s) ->
  exists x, s !! Z.to_nat i = Some x /\ index s i = Ok x.
Proof.
  intros Hi. unfold index.
  replace ((i <? 0) || (Z.of_nat (length s) <=? i)) with false
    by (symmetry; apply orb_false_iff; split; [apply Z.ltb_ge|apply Z.leb_gt]; lia).
  destruct (lookup_lt_is_Some_2 s (Z.to_nat i)) as [x Hx]; [lia|].
  exists x. by rewrite Hx.
Qed.

Lemma index_out_of_range {A : Type} (s : list A) (i : Z) :
  i < 0 \/ Z.of_nat (length s) <= i -> index s i = Panic.
Proof.
  intros Hi. unfold index.
  replace ((i <? 0) || (Z.of_nat (length s) <=? i)) with true; [done|].
  symmetry. apply orb_true_iff.
  destruct Hi; [left; apply Z.ltb_lt|right; apply Z.leb_le]; lia.
Qed.

Lemma slice_to_in_range {A : Type} (s : list A) (k : Z) :
  0 <= k <= Z.of_nat (length s) -> slice_to s k = Ok (take (Z.to_nat k) s).
Proof.
  intros Hk. unfold slice_to.
  replace ((k <? 0) || (Z.of_nat (length s) <? k)) with false; [done|].
  symmetry. apply orb_false_iff. split; [apply Z.ltb_ge|apply Z.ltb_ge]; lia.
Qed.


Lemma truncateFlat_short cursorOf maxKeys seq :
  Z.of_nat (length seq) <= maxKeys ->
  truncateFlat cursorOf maxKeys seq = Ok (false, EmptyString, seq).
Proof.
  intros Hk. unfold truncateFlat.
  by replace (Z.of_nat (length seq) >? maxKeys) with false
    by (symmetry; rewrite Z.gtb_ltb; apply Z.ltb_ge; lia).
Qed.

(** The version listing reads the next markers off the first element past
    the cut, and the markers of the page off the last element kept. *)
Lemma truncateVersions_truncated maxKeys seq :
  0 < maxKeys < Z.of_nat (length seq) ->
  exists next lastObj,
    seq !! Z.to_nat maxKeys = Some next
    /\ seq !! Z.to_nat (maxKeys - 1) = Some lastObj
    /\ truncateVersions maxKeys seq
       = Ok (mkTruncation true (Name next) (Version next)
               (take (Z.to_nat maxKeys) seq) (Name lastObj) (Version lastObj)).
Proof.
  intros Hk. unfold truncateVersions.
  replace (Z.of_nat (length seq) >? maxKeys) with true
    by (symmetry; apply Z.gtb_lt; lia).
  destruct (index_in_range seq maxKeys) as (next & Hnext & ->); [lia|].
  simpl. rewrite slice_to_in_range by lia. simpl.
  assert (length (take (Z.to_nat maxKeys) seq) = Z.to_nat maxKeys) as Hlen
    by (apply length_take_le; lia).
  destruct (index_in_range (take (Z.to_nat maxKeys) seq) (maxKeys - 1))
    as (x & Hx & ->); [lia|].
  simpl. exists next, x. rewrite lookup_take_lt in Hx by lia. done.
Qed.

Lemma truncateVersions_short maxKeys seq :
  Z.of_nat (length seq) <= maxKeys ->
  truncateVersions maxKeys seq
  = Ok (mkTruncation false EmptyString EmptyString seq EmptyString EmptyString).
Proof.
  intros Hk. unfold truncateVersions.
  by replace (Z.of_nat (length seq) >? maxKeys) with false
    by (symmetry; rewrite Z.gtb_ltb; apply Z.ltb_ge; lia).
Qed.

(** For a positive count the truncation step of the version listing does
    not panic. *)
Lemma truncateVersions_positive maxKeys seq :
  0 < maxKeys -> exists tr, truncateVersions maxKeys seq = Ok tr.
Proof.
  intros Hpos. destruct (Z.le_gt_cases (Z.of_nat (length seq)) maxKeys) as [Hle|Hgt].
  - eexists. by apply truncateVersions_short.
  - destruct (truncateVersions_truncated maxKeys seq) as (next & lastObj & _ & _ & ->);
      [lia|]. by eexists.
Qed.

(** C9 (the code at the failing inputs): with a count of zero and any
    non-empty sequence the truncation step of [ListObjectVersions] cuts the
    slice to length zero and then reads index [-1]: the step panics. *)
Theorem truncateVersions_zero_panics (obj : ObjectInfo) (rest : list ObjectInfo) :
  truncateVersions 0 (obj :: rest) = Panic.
Proof. reflexivity. Qed.

(** A negative count panics as well, on every sequence. *)
Lemma truncateVersions_negative_panics maxKeys seq :
  maxKeys < 0 -> truncateVersions maxKeys seq = Panic.
Proof.
  intros Hneg. unfold truncateVersions.
  replace (Z.of_nat (length seq) >? maxKeys) with true
    by (symmetry; apply Z.gtb_lt; lia).
  rewrite index_out_of_range by lia. done.
Qed.

(** ** The listings as a whole *)

Section ListingFacts.
Context `{SliceSorter}.



(** With a count of zero the flat listings answer at once: the result is
    empty and not truncated, and the store, with its record of the calls
    issued, is untouched. *)
Lemma ListObjectsV1_max_keys_zero n p st :
  ListObjectsParamsCommon.MaxKeys (ListObjectsParamsV1.Common p) = 0 ->
  ListObjectsV1 n p st = (Ok (ListObjectsInfoV1.mk [] [] false EmptyString), st).
Proof. intros E. unfold ListObjectsV1. by rewrite E. Qed.

Lemma ListObjectsV2_max_keys_zero n p st :
  ListObjectsParamsCommon.MaxKeys (ListObjectsParamsV2.Common p) = 0 ->
  ListObjectsV2 n p st = (Ok (ListObjectsInfoV2.mk [] [] false EmptyString), st).
Proof. intros E. unfold ListObjectsV2. by rewrite E. Qed.



(** The sequence a version listing truncates: the universe from the
    markers on, directory entries taken out. *)
Definition versionsSequence (p : ListObjectVersionsParams.t)
    (all : list ObjectInfo) : list ObjectInfo :=
  snd (triageObjects
         (applyMarkers (ListObjectVersionsParams.KeyMarker p)
                       (ListObjectVersionsParams.VersionIDMarker p) all)).

Lemma ListObjectVersions_run n p st all st' :
  loadAllVersions n p st = (Ok all, st') ->
  ListObjectVersions n p st = (pageVersions p all, st').
Proof. intros Hall. unfold ListObjectVersions, bind. by rewrite Hall. Qed.



(** With a count of zero and anything left to show, the version listing as
    a whole panics, after its calls to the backend. *)
Lemma ListObjectVersions_zero_panics n p st all st' :
  loadAllVersions n p st = (Ok all, st') ->
  ListObjectVersionsParams.MaxKeys p = 0 ->
  versionsSequence p all <> [] ->
  ListObjectVersions n p st = (Panic, st').
Proof.
  intros Hall Hzero Hne. rewrite (ListObjectVersions_run _ _ _ _ _ Hall).
  unfold pageVersions. unfold versionsSequence in Hne. cbv zeta.
  destruct (triageObjects _) as [commonPrefixes seq]. simpl in Hne.
  destruct seq as [|obj rest]; [done|].
  rewrite Hzero. reflexivity.
Qed.

End ListingFacts.

(** ** The listings on the sample bucket *)





(** Directory entries do not count towards the size of a version listing:
    they are set aside as common prefixes before the length test, so a
    directory and one object fit a page of one, untruncated. *)
Example pageVersions_directories_not_counted :
  pageVersions (versionsParams "" "" 1)
    [mkObjectInfo "" "bucket" "a/" true 0 0 ∅; obj3]
  = Ok (ListObjectVersionsInfo.mk ["a/"] false "" "" ""
          [mkObjectVersionInfo obj3 true] [] "").
Proof. vm_compute. reflexivity. Qed.

(** The same backend with nothing stored. *)
Definition emptyLayer : layer :=
  mkLayer (bucketInfoOf sampleLayer) (fun _ _ => inr [])
          (poolGetObjectHeader sampleLayer) (objectInfoFromMeta sampleLayer)
          (createKey sampleLayer).

(** C6 (the code at the failing inputs): a version listing with a count of
    zero goes to the backend, a search and one head per id, and then
    panics in its truncation step; on an empty bucket it returns the empty
    result, after a search. *)
Theorem ListObjectVersions_max_keys_zero :
  fst (ListObjectVersions sampleLayer (versionsParams "" "" 0) emptyStore) = Panic
  /\ calls (snd (ListObjectVersions sampleLayer (versionsParams "" "" 0) emptyStore))
     = [CallGetBucketInfo "bucket"; CallSearchObject "cid" [FilterRoot];
        CallGetObjectHeader "cid" "1"; CallGetObjectHeader "cid" "2";
        CallGetObjectHeader "cid" "3"; CallGetObjectHeader "cid" "4"]
  /\ fst (ListObjectVersions emptyLayer (versionsParams "" "" 0) emptyStore)
     = Ok (ListObjectVersionsInfo.mk [] false "" "" "" [] [] "")
  /\ calls (snd (ListObjectVersions emptyLayer (versionsParams "" "" 0) emptyStore))
     = [CallGetBucketInfo "bucket"; CallSearchObject "cid" [FilterRoot]].
Proof. repeat split; vm_compute; reflexivity. Qed.

(** ** The latest flag of a version listing *)

Lemma markLatest_lookup page (i : nat) :
  markLatest page !! i
  = (fun obj =>
       mkObjectVersionInfo obj
         (match page !! S i with
          | Some next => negb (String.eqb (Name next) (Name obj))
          | None => true
          end)) <$> page !! i.
Proof.
  revert i. induction page as [|obj rest IH]; intros i; [done|].
  destruct i as [|i]; simpl; [by destruct rest|]. apply IH.
Qed.

Lemma triageVersions_filter objVersions :
  triageVersions objVersions
  = (List.filter (fun v => negb (isDeleteMarker v)) objVersions,
     List.filter isDeleteMarker objVersions).
Proof.
  unfold triageVersions. destruct objVersions as [|v0 l0]; [done|].
  simpl length. cbv iota.
  assert (forall l a b,
    fold_left
      (fun '(resVersion, resDelMarkVersions) version =>
         if String.eqb (hdr (Headers (Object version)) versionsDeleteMarkAttr)
                       delMarkFullObject
         then (resVersion, resDelMarkVersions ++ [version])
         else (resVersion ++ [version], resDelMarkVersions))
      l (a, b)
    = (a ++ List.filter (fun v => negb (isDeleteMarker v)) l,
       b ++ List.filter isDeleteMarker l)) as Hgen.
  { induction l as [|v l IH]; intros a b; simpl.
    - by rewrite !app_nil_r.
    - change (String.eqb (hdr (Headers (Object v)) versionsDeleteMarkAttr)
                         delMarkFullObject) with (isDeleteMarker v).
      destruct (isDeleteMarker v); simpl; rewrite IH, <- app_assoc; reflexivity. }
  apply (Hgen (v0 :: l0) [] []).
Qed.

Lemma sorted_by_name_lookup l (i j : nat) a b :
  sorted_by_name l -> (i < j)%nat -> l !! i = Some a -> l !! j = Some b ->
  GoString.le (Name a) (Name b) = true.
Proof.
  unfold sorted_by_name. intros Hs. revert i j.
  induction Hs as [|x l Hl IH Hx]; intros i j Hij Hi Hj; [done|].
  destruct j as [|j]; [lia|]. simpl in Hj. destruct i as [|i]; simpl in Hi.
  - injection Hi as ->. rewrite Forall_forall in Hx. apply Hx.
    by apply list_elem_of_lookup_2 in Hj.
  - apply (IH i j); [lia|done..].
Qed.

(** In a page sorted by name, an entry whose successor has another name is
    the last entry of its name. *)
Lemma last_of_name page (i : nat) obj :
  sorted_by_name page -> page !! i = Some obj ->
  (forall next, page !! S i = Some next -> Name next <> Name obj) ->
  forall (j : nat) later,
    (i < j)%nat -> page !! j = Some later -> Name later <> Name obj.
Proof.
  intros Hs Hi Hnext j later Hij Hj Heq.
  destruct (page !! S i) as [next|] eqn:Hn.
  - apply (Hnext next eq_refl).
    apply String.leb_antisym.
    + destruct (decide (S i = j)) as [<-|Hne].
      * rewrite Hj in Hn. injection Hn as <-. rewrite Heq. apply le_refl_name.
      * rewrite <- Heq.
        apply (sorted_by_name_lookup page (S i) j); [done|lia|done..].
    + apply (sorted_by_name_lookup page i (S i)); [done|lia|done..].
  - apply lookup_ge_None_1 in Hn. apply lookup_lt_Some in Hj. lia.
Qed.

(** C10: every entry of the two result slices of [ListObjectVersions] is
    an entry of the page, the sequence of objects returned, flagged latest
    exactly when no entry follows it in the page or the entry that follows
    has another key name; on a page sorted by key name that is: exactly
    when it is the last entry of its key name. *)
Theorem IsLatest_marks_last_of_name `{SliceSorter} n p st r :
  fst (ListObjectVersions n p st) = Ok r ->
  exists page : list ObjectInfo,
    ListObjectVersionsInfo.Version r
    = List.filter (fun v => negb (isDeleteMarker v)) (markLatest page)
    /\ ListObjectVersionsInfo.DeleteMarker r
       = List.filter isDeleteMarker (markLatest page)
    /\ forall (i : nat) entry,
         markLatest page !! i = Some entry ->
         page !! i = Some (Object entry)
         /\ (IsLatest entry = true <->
             forall next, page !! S i = Some next ->
                          Name next <> Name (Object entry))
         /\ (sorted_by_name page ->
             (IsLatest entry = true <->
              forall (j : nat) later,
                (i < j)%nat -> page !! j = Some later ->
                Name later <> Name (Object entry))).
Proof.
  unfold ListObjectVersions, bind, lift.
  destruct (loadAllVersions n p st) as [[all|e|] st']; try done. simpl.
  unfold pageVersions. cbv zeta.
  destruct (triageObjects _) as [commonPrefixes seq].
  destruct (truncateVersions _ seq) as [tr|e|]; try done.
  cbn [result_bind]. cbv beta. rewrite triageVersions_filter.
  intros [= <-]. exists (truncPage tr). simpl.
  split; [done|]. split; [done|].
  intros i entry Hentry. rewrite markLatest_lookup in Hentry.
  destruct (truncPage tr !! i) as [obj|] eqn:Hobj; [|done].
  injection Hentry as <-. simpl.
  assert ((match truncPage tr !! S i with
           | Some next => negb (String.eqb (Name next) (Name obj))
           | None => true
           end) = true <->
          forall next, truncPage tr !! S i = Some next -> Name next <> Name obj)
    as Hadj.
  { destruct (truncPage tr !! S i) as [next|].
    - rewrite negb_true_iff, String.eqb_neq. split.
      + by intros Hne ? [= <-].
      + intros Hall. by apply Hall.
    - split; [by intros _ ? ?|done]. }
  split; [done|]. split; [exact Hadj|].
  intros Hs. rewrite Hadj. split.
  - intros Hnext. by apply last_of_name.
  - intros Hlater next Hn. apply (Hlater (S i)); [lia|done].
Qed.

Lemma IsLatest_marks_last_of_name_witness :
  fst (ListObjectVersions sampleLayer (versionsParams "" "" 3) emptyStore)
  = Ok (ListObjectVersionsInfo.mk [] true "b" "c" "4"
          [mkObjectVersionInfo obj1 false; mkObjectVersionInfo obj2 true;
           mkObjectVersionInfo obj3 true] [] "3")
  /\ exists page : list ObjectInfo,
       [mkObjectVersionInfo obj1 false; mkObjectVersionInfo obj2 true;
        mkObjectVersionInfo obj3 true]
       = List.filter (fun v => negb (isDeleteMarker v)) (markLatest page)
       /\ forall (i : nat) entry,
            markLatest page !! i = Some entry ->
            (IsLatest entry = true <->
             forall next, page !! S i = Some next ->
                          Name next <> Name (Object entry)).
Proof.
  assert (fst (ListObjectVersions sampleLayer (versionsParams "" "" 3) emptyStore)
          = Ok (ListObjectVersionsInfo.mk [] true "b" "c" "4"
                  [mkObjectVersionInfo obj1 false; mkObjectVersionInfo obj2 true;
                   mkObjectVersionInfo obj3 true] [] "3")) as Hrun
    by (vm_compute; reflexivity).
  split; [exact Hrun|].
  destruct (IsLatest_marks_last_of_name sampleLayer _ emptyStore _ Hrun)
    as (page & Hversion & _ & Hflags).
  exists page. split; [exact Hversion|].
  intros i entry Hentry. by destruct (Hflags i entry Hentry) as (_ & Hadj & _).
Defined.
